(** * Character-level joke generator: data pipeline and generation loop

    A shallow embedding of the notebook [Humour Generation/rnn_tensorflow.ipynb]:
    corpus cleaning and marking, the two code tables [char_labels] and
    [labels_char], the sliding-window loop that builds the training pairs,
    [generate_seq], and [padDataBatch] with the batch loop of [train].

    Python values are modelled as follows.
    - [str] is a list of characters ([ascii]; the corpus is ASCII text); a
      character is a [str] of length one.
    - [int] is [Z].
    - [dict] is an insertion-ordered association list with unique keys:
      [d[k] = v] overwrites in place or appends, [d.items()] walks the
      entries in insertion order.
    - A raised exception is [None]; a normal result is [Some]. *)

From Stdlib Require Import List ZArith Ascii Bool Arith Lia Permutation Sorted.
From Stdlib Require String.
Import ListNotations String.StringSyntax.

Set Warnings "-abstract-large-number".
Local Open Scope Z_scope.

(** ** Python strings and lists *)

Module Py.

Definition str : Type := list ascii.

(** A string literal. *)
Definition lit (s : String.string) : str := String.list_ascii_of_string s.
Arguments lit s%_string_scope.

Definition str_eqb (a b : str) : bool :=
  if list_eq_dec ascii_dec a b then true else false.

(** [text.replace(char, '')] for a one-character [char]. *)
Definition replace_with_empty (text : str) (char : ascii) : str :=
  filter (fun c => negb (Ascii.eqb c char)) text.

(** [sep.join(parts)] *)
Fixpoint join (sep : str) (parts : list str) : str :=
  match parts with
  | [] => []
  | [p] => p
  | p :: rest => p ++ sep ++ join sep rest
  end.

(** [l[i:j]] for [0 <= i <= j]. *)
Definition slice {A} (l : list A) (i j : nat) : list A :=
  firstn (j - i) (skipn i l).

(** [enumerate(l)], counting from [i]. *)
Fixpoint enumerate_from {A} (i : Z) (l : list A) : list (Z * A) :=
  match l with
  | [] => []
  | x :: l' => (i, x) :: enumerate_from (i + 1) l'
  end.

Definition enumerate {A} (l : list A) : list (Z * A) := enumerate_from 0 l.

(** Evaluate a list comprehension whose element expression may raise. *)
Fixpoint traverse {A B} (f : A -> option B) (l : list A) : option (list B) :=
  match l with
  | [] => Some []
  | x :: l' =>
      match f x with
      | None => None
      | Some y =>
          match traverse f l' with
          | None => None
          | Some ys => Some (y :: ys)
          end
      end
  end.

(** *** Insertion-ordered dictionaries *)

Section Dict.
Context {K V : Type}.
Variable eqb : K -> K -> bool.

Definition dict : Type := list (K * V).

(** [d[k]]; [None] is [KeyError]. *)
Fixpoint get (d : dict) (k : K) : option V :=
  match d with
  | [] => None
  | (k', v) :: d' => if eqb k k' then Some v else get d' k
  end.

(** [d[k] = v] *)
Fixpoint set (d : dict) (k : K) (v : V) : dict :=
  match d with
  | [] => [(k, v)]
  | (k', v') :: d' =>
      if eqb k k' then (k', v) :: d' else (k', v') :: set d' k v
  end.

Definition items (d : dict) : list (K * V) := d.
Definition keys (d : dict) : list K := map fst d.
Definition values (d : dict) : list V := map snd d.
Definition len (d : dict) : nat := length d.
End Dict.

End Py.

Import Py.

(** ** Cleaning, the character set, marking *)

Definition BACKSPACE : ascii := "008"%char.
Definition DLE : ascii := "016"%char.
Definition NEWLINE : ascii := "010"%char.
Definition TILDE : ascii := "~"%char.
Definition CARET : ascii := "^"%char.

(** [def removeChars(text)] *)
Definition removeChars (text : str) : str :=
  fold_left replace_with_empty [BACKSPACE; DLE; TILDE; CARET] text.

(** [all_jokes.Joke.apply(lambda x: removeChars(x))] *)
Definition clean_jokes (jokes : list str) : list str := map removeChars jokes.

(** [text = '\n'.join(all_jokes.Joke)], after cleaning. *)
Definition corpus_text (jokes : list str) : str :=
  join [NEWLINE] (clean_jokes jokes).

(** [chars = list(set(text))]: the order in which a Python set is listed is
    not fixed by the language, so [chars] is any duplicate-free listing of
    the characters of [text]. *)
Definition list_of_set (text : str) (chars : list ascii) : Prop :=
  NoDup chars /\ forall c, In c chars <-> In c text.

(** [lambda x: '~' + x + '^'] *)
Definition mark (x : str) : str := [TILDE] ++ x ++ [CARET].

(** [all_jokes.Joke] once marked. *)
Definition marked_jokes (jokes : list str) : list str :=
  map mark (clean_jokes jokes).

(** ** The code tables *)

Definition PAD : str := lit "PAD".

Definition chr (c : ascii) : str := [c].

(** [char_labels] *)
Definition char_labels (chars : list ascii) : dict :=
  let d0 := fold_left (fun d '(i, ch) => set str_eqb d (chr ch) (i + 3))
                      (enumerate chars) [] in
  let d1 := set str_eqb d0 PAD 0 in
  let d2 := set str_eqb d1 (chr TILDE) 1 in
  set str_eqb d2 (chr CARET) 2.

(** [labels_char] *)
Definition labels_char (chars : list ascii) : dict :=
  let d0 := fold_left (fun d '(i, ch) => set Z.eqb d (i + 3) (chr ch))
                      (enumerate chars) [] in
  let d1 := set Z.eqb d0 0 PAD in
  let d2 := set Z.eqb d1 1 (chr TILDE) in
  set Z.eqb d2 2 (chr CARET).

(** [encode] and [decode] of the specification are the two table lookups. *)
Definition encode (chars : list ascii) (k : str) : option Z :=
  get str_eqb (char_labels chars) k.

Definition decode (chars : list ascii) (code : Z) : option str :=
  get Z.eqb (labels_char chars) code.

(** ** Library functions the notebook calls

    Keras and NumPy are not part of the notebook; the calls it makes are
    modelled after the library code, for the arguments the notebook
    passes. *)

Module Lib.

(** [max(l)] and [np.max(l)]; both raise on an empty sequence. *)
Definition py_max (l : list Z) : option Z :=
  match l with
  | [] => None
  | x :: l' => Some (fold_left Z.max l' x)
  end.

(** One row of a one-hot matrix: a 1 in column [c], zeros elsewhere. *)
Definition one_hot (num_classes : nat) (c : Z) : list Z :=
  map (fun j => if Z.of_nat j =? c then 1 else 0) (seq 0 num_classes).

(** [keras.utils.to_categorical(y, num_classes)]. A class count of 0 is
    replaced by [np.max(y) + 1]. The rows are filled by
    [categorical[np.arange(n), y] = 1]: an index from [-num_classes] to
    [num_classes - 1] is accepted, a negative one counting from the last
    column, and any other index raises. *)
Definition to_categorical (y : list Z) (num_classes : nat)
  : option (list (list Z)) :=
  let classes :=
    if (num_classes =? 0)%nat
    then option_map (fun m => Z.to_nat (m + 1)) (py_max y)
    else Some num_classes in
  match classes with
  | None => None
  | Some n =>
      if forallb (fun c => (- Z.of_nat n <=? c) && (c <? Z.of_nat n)) y
      then Some (map (fun c => one_hot n (c mod Z.of_nat n)) y)
      else None
  end.

(** [pad_sequences([s], maxlen=maxlen, truncating='pre')], with the default
    [padding='pre'] and [value=0]. The row starts as [maxlen] zeros; an
    empty [s] leaves it so. Otherwise [trunc = s[-maxlen:]], which is the
    whole of [s] when [maxlen] is 0, is stored by
    [x[idx, -len(trunc):] = trunc]: into the last [len(trunc)] places when
    they exist, and when there are fewer places the store raises, unless
    [trunc] is a single value, which NumPy spreads over the places there
    are. So for [maxlen > 0] the result is the last [maxlen] values of [s]
    with zeros in front, and for [maxlen = 0] a sequence of two or more
    values raises. *)
Definition pad_sequences (s : list Z) (maxlen : nat) : option (list Z) :=
  match s with
  | [] => Some (repeat 0 maxlen)
  | _ =>
      let trunc :=
        match maxlen with
        | O => s
        | _ => skipn (length s - maxlen) s
        end in
      let places := Nat.min (length trunc) maxlen in
      if (length trunc =? places)%nat
      then Some (repeat 0 (maxlen - places) ++ trunc)
      else if (length trunc =? 1)%nat
           then Some (repeat 0 (maxlen - places) ++ repeat (hd 0 trunc) places)
           else None
  end.

(** [np.pad(utter, (0, n), mode='constant')]: [n] zeros after the data; a
    negative pad width raises. *)
Definition np_pad_after (utter : list Z) (n : Z) : option (list Z) :=
  if n <? 0 then None else Some (utter ++ repeat 0 (Z.to_nat n)).

(** Conversion to [dtype="int32"]: two's complement on 32 bits. *)
Definition as_int32 (z : Z) : Z := (z + 2 ^ 31) mod 2 ^ 32 - 2 ^ 31.

End Lib.

Import Lib.

(** A [for] loop whose body may raise: the state is threaded through the
    iterations and the first exception ends the loop. *)
Fixpoint for_each {A S} (l : list A) (body : A -> S -> option S) (st : S)
  : option S :=
  match l with
  | [] => Some st
  | x :: l' =>
      match body x st with
      | None => None
      | Some st' => for_each l' body st'
      end
  end.

(** ** The training windows (Keras variant of the notebook) *)

(** [[char_labels[char] for char in z]] for any table. *)
Definition encode_text (mapping : @dict str Z) (z : str) : option (list Z) :=
  traverse (fun char => get str_eqb mapping (chr char)) z.

(** [x_data = [[char_labels[char] for char in z] for z in all_jokes.Joke]] *)
Definition x_data (chars : list ascii) (jokes : list str)
  : option (list (list Z)) :=
  traverse (encode_text (char_labels chars)) (marked_jokes jokes).

(** The two lists the loop appends to. *)
Record windows : Type := mkWindows {
  input_sequences : list (list (list Z));
  labels : list Z
}.

(** Body of [for i in range(len(seq))]. *)
Definition window_body (max_len num_classes : nat) (seq : list Z) (i : nat)
  (st : windows) : option windows :=
  if (i + max_len <? length seq)%nat then
    match to_categorical (slice seq i (i + max_len)) num_classes with
    | None => None
    | Some w =>
        Some (mkWindows (input_sequences st ++ [w])
                        (labels st ++ [nth (i + max_len) seq 0]))
    end
  else Some st.

(** The padded sequence [[1]*max_len + seq + [2]]. *)
Definition padded_seq (max_len : nat) (seq : list Z) : list Z :=
  repeat 1 max_len ++ seq ++ [2].

(** Body of [for seq in tqdm(x_data[:100000])]. *)
Definition window_example (max_len num_classes : nat) (seq : list Z)
  (st : windows) : option windows :=
  let seq := padded_seq max_len seq in
  for_each (List.seq 0 (length seq)) (window_body max_len num_classes seq) st.

(** The whole cell, up to the two final array conversions; [labels] is
    one-hot encoded at the end. *)
Definition make_windows (max_len : nat) (chars : list ascii)
  (jokes : list str) : option (list (list (list Z)) * list (list Z)) :=
  match x_data chars jokes with
  | None => None
  | Some xs =>
      let num_classes := len (char_labels chars) in
      match for_each (firstn 100000 xs) (window_example max_len num_classes)
                     (mkWindows [] []) with
      | None => None
      | Some st =>
          match to_categorical (labels st) num_classes with
          | None => None
          | Some onehot_labels => Some (input_sequences st, onehot_labels)
          end
      end
  end.

(** ** [generate_seq] *)

(** The variables of the reverse-lookup loop: [out_char], and the loop
    variable [char], which is unbound until the loop has run once. *)
Record lookup_vars : Type := mkLookup {
  out_char : str;
  char : option str
}.

(** [for char, index in mapping.items(): if index == yhat: out_char = char; break] *)
Fixpoint reverse_lookup (its : list (str * Z)) (yhat : Z) (st : lookup_vars)
  : lookup_vars :=
  match its with
  | [] => st
  | (c, index) :: rest =>
      if index =? yhat then mkLookup c (Some c)
      else reverse_lookup rest yhat (mkLookup (out_char st) (Some c))
  end.

Section Generate.
(** [model.predict_classes]: from the one-hot window to a class. *)
Variable model : list (list Z) -> Z.
Variable mapping : @dict str Z.
Variable seq_length : nat.

(** One iteration of [for _ in range(n_chars)].  The statement
    [in_text += char] appends the loop variable [char], not [out_char];
    reading [char] when the table is empty raises.  A non-empty table
    rebinds [char] in every iteration, so no binding is carried over. *)
Definition generate_step (in_text : str) : option str :=
  match encode_text mapping in_text with
  | None => None
  | Some encoded =>
      match pad_sequences encoded seq_length with
      | None => None
      | Some encoded =>
          match to_categorical encoded (len mapping) with
          | None => None
          | Some onehot =>
              let yhat := model onehot in
              let st :=
                reverse_lookup (items mapping) yhat (mkLookup [] None) in
              match char st with
              | None => None
              | Some c => Some (in_text ++ c)
              end
          end
      end
  end.

Fixpoint generate_loop (n_chars : nat) (in_text : str) : option str :=
  match n_chars with
  | O => Some in_text
  | S n => match generate_step in_text with
           | None => None
           | Some t => generate_loop n t
           end
  end.

Definition generate_seq (seed_text : str) (n_chars : nat) : option str :=
  generate_loop n_chars seed_text.
End Generate.

(** ** [padDataBatch] and [train] (TensorFlow variant of the notebook) *)

Definition batch : Type := (list (list Z) * list Z * list (list Z))%type.

(** [def padDataBatch(data, labels)] *)
Definition padDataBatch (data labels : list (list Z)) : option batch :=
  let seq_lengths := map (fun utter => Z.of_nat (length utter)) data in
  match py_max seq_lengths with
  | None => None
  | Some maxlen =>
      let pad := fun utter : list Z =>
        match np_pad_after utter (maxlen - Z.of_nat (length utter)) with
        | None => None
        | Some row => Some (map as_int32 row)
        end in
      match traverse pad data with
      | None => None
      | Some x_data =>
          match traverse pad labels with
          | None => None
          | Some y_data =>
              match traverse (fun row => to_categorical row 97) x_data with
              | None => None
              | Some _ => Some (x_data, seq_lengths, y_data)
              end
          end
      end
  end.

(** [batch_size = 128] *)
Definition batch_size : nat := 128.

(** [range(0, n, step)] for a positive [step]. *)
Definition range_step (n step : nat) : list nat :=
  map (fun j => (j * step)%nat) (List.seq 0 ((n + step - 1) / step)).

(** The batch loop of one epoch of [train], for the order [all_idxs] the
    shuffle produced, stated for any batch size [bs].  The result is the
    sequence of feeds handed to [sess.run]; indexing outside the data
    raises. *)
Definition train_epoch (bs : nat) (input_seq output_seq : list (list Z))
  (all_idxs : list nat) : option (list batch) :=
  for_each (range_step (length all_idxs) bs)
    (fun i feeds =>
       let idxs := slice all_idxs i (i + bs) in
       match traverse (nth_error input_seq) idxs,
             traverse (nth_error output_seq) idxs with
       | Some data, Some labels =>
           match padDataBatch data labels with
           | None => None
           | Some feed => Some (feeds ++ [feed])
           end
       | _, _ => None
       end)
    [].

(** The loop as [train] runs it. *)
Definition train_feeds : list (list Z) -> list (list Z) -> list nat
                         -> option (list batch) :=
  train_epoch batch_size.

(** The feed of the batch that starts at position [i]. *)
Definition batch_feed (bs : nat) (input_seq output_seq : list (list Z))
  (all_idxs : list nat) (i : nat) : option batch :=
  let idxs := slice all_idxs i (i + bs) in
  match traverse (nth_error input_seq) idxs,
        traverse (nth_error output_seq) idxs with
  | Some data, Some labels => padDataBatch data labels
  | _, _ => None
  end.

(** ** The tables written out

    With [chars] free of duplicates and of the two sentinel glyphs, every
    assignment to the tables inserts a new key, so the tables are these lists
    (proved below as [char_labels_table] and [labels_char_table]). *)

Definition char_table (chars : list ascii) : @dict str Z :=
  map (fun p => (chr (snd p), fst p + 3)) (enumerate chars)
  ++ [(PAD, 0); (chr TILDE, 1); (chr CARET, 2)].

Definition label_table (chars : list ascii) : @dict Z str :=
  map (fun p => (fst p + 3, chr (snd p))) (enumerate chars)
  ++ [(0, PAD); (1, chr TILDE); (2, chr CARET)].

(** A text all of whose characters are keys of the table. *)
Definition encodable (mapping : @dict str Z) (text : str) : Prop :=
  Forall (fun c => In (chr c) (keys mapping)) text.

(** A class index of a table with [n] entries. *)
Definition is_class (n : nat) (code : Z) : Prop := 0 <= code < Z.of_nat n.

(** ** A small corpus used to instantiate the statements *)

Definition example_jokes : list str := [lit "hi~"; lit "ha^"].

(** One listing of [set("hi\nha")]. *)
Definition example_chars : list ascii := ["a"; NEWLINE; "i"; "h"]%char.

(** ** The windows of one joke, written out *)

(** What the loop appends to [input_sequences] for one encoded joke (proved
    below as [window_example_spec]). *)
Definition row_windows (max_len num_classes : nat) (row : list Z)
  : list (list (list Z)) :=
  map (fun i => map (one_hot num_classes)
                    (slice (padded_seq max_len row) i (i + max_len)))
      (seq 0 (length row + 1)).

(** ** The gap check on the codes *)

(** [sorted(l)] for a list of integers. *)
Fixpoint insert_sorted (x : Z) (l : list Z) : list Z :=
  match l with
  | [] => [x]
  | y :: l' => if x <=? y then x :: l else y :: insert_sorted x l'
  end.

Definition py_sorted (l : list Z) : list Z := fold_right insert_sorted [] l.

(** [z = sorted(list(char_labels.values()))] followed by
    [for i, k in enumerate(z): if i != k: print(i)]; the result is the list
    of the numbers printed. *)
Definition gap_check (chars : list ascii) : list Z :=
  let z := py_sorted (values (char_labels chars)) in
  map fst (filter (fun p => negb (fst p =? snd p)) (enumerate z)).

(** ** Inputs and targets of the TensorFlow variant *)

(** [x_data]: [[char_labels[char] for char in z[:-1]]] for every joke. *)
Definition x_data_tf (chars : list ascii) (jokes : list str)
  : option (list (list Z)) :=
  traverse (fun z => encode_text (char_labels chars) (removelast z))
           (marked_jokes jokes).

(** [y_data]: [[char_labels[char] for char in z[1:]]] for every joke. *)
Definition y_data_tf (chars : list ascii) (jokes : list str)
  : option (list (list Z)) :=
  traverse (fun z => encode_text (char_labels chars) (tl z))
           (marked_jokes jokes).

(** * Properties *)

(** ** Strings and dictionaries *)

Lemma str_eqb_eq (a b : str) : str_eqb a b = true <-> a = b.
Proof.
  unfold str_eqb. destruct (list_eq_dec ascii_dec a b); split; congruence.
Qed.

Section DictFacts.
Context {K V : Type}.
Variable eqb : K -> K -> bool.
Hypothesis eqb_eq : forall a b, eqb a b = true <-> a = b.

Lemma eqb_false_iff a b : eqb a b = false <-> a <> b.
Proof.
  destruct (eqb a b) eqn:E.
  - apply eqb_eq in E. split; [discriminate | contradiction].
  - split; [|reflexivity]. intros _ Hab. apply eqb_eq in Hab. congruence.
Qed.

Lemma set_fresh (d : @dict K V) k v :
  ~ In k (keys d) -> set eqb d k v = d ++ [(k, v)].
Proof.
  induction d as [|[k' v'] d IH]; simpl; intros Hk; [reflexivity|].
  destruct (eqb k k') eqn:E.
  - apply eqb_eq in E. subst. tauto.
  - rewrite IH by tauto. reflexivity.
Qed.

Lemma get_not_in (d : @dict K V) k : ~ In k (keys d) -> get eqb d k = None.
Proof.
  induction d as [|[k' v'] d IH]; simpl; intros Hk; [reflexivity|].
  destruct (eqb k k') eqn:E.
  - apply eqb_eq in E. subst. tauto.
  - apply IH. tauto.
Qed.

Lemma get_Some_In (d : @dict K V) k v : get eqb d k = Some v -> In (k, v) d.
Proof.
  induction d as [|[k' v'] d IH]; simpl; [discriminate|].
  destruct (eqb k k') eqn:E.
  - apply eqb_eq in E. subst. intros [= ->]. now left.
  - intros H. right. now apply IH.
Qed.

Lemma In_keys_get (d : @dict K V) k :
  In k (keys d) -> exists v, get eqb d k = Some v.
Proof.
  induction d as [|[k' v'] d IH]; simpl; [tauto|].
  intros H. destruct (eqb k k') eqn:E; [eauto|].
  destruct H as [H|H]; [|now apply IH].
  subst. apply eqb_false_iff in E. congruence.
Qed.

Lemma In_get_NoDup (d : @dict K V) k v :
  NoDup (keys d) -> In (k, v) d -> get eqb d k = Some v.
Proof.
  induction d as [|[k' v'] d IH]; simpl; [tauto|].
  intros Hnd [H|H].
  - inversion H; subst. now rewrite (proj2 (eqb_eq k k) eq_refl).
  - inversion Hnd as [|? ? Hni Hnd']; subst.
    destruct (eqb k k') eqn:E.
    + apply eqb_eq in E. subst. exfalso. apply Hni.
      change k' with (fst (k', v)). now apply in_map.
    + now apply IH.
Qed.
End DictFacts.

(** ** Cleaning and marking *)

Lemma In_replace_with_empty text char c :
  In c (replace_with_empty text char) <-> In c text /\ c <> char.
Proof.
  unfold replace_with_empty. rewrite filter_In.
  rewrite negb_true_iff, Ascii.eqb_neq. tauto.
Qed.

Lemma In_removeChars x c :
  In c (removeChars x) <->
  In c x /\ c <> BACKSPACE /\ c <> DLE /\ c <> TILDE /\ c <> CARET.
Proof.
  unfold removeChars. simpl.
  rewrite !In_replace_with_empty. tauto.
Qed.

Lemma In_join sep parts c :
  In c (join sep parts) -> In c sep \/ exists p, In p parts /\ In c p.
Proof.
  induction parts as [|p rest IH]; simpl; [tauto|].
  destruct rest as [|q rest].
  - intros H. right. exists p. auto.
  - rewrite !in_app_iff. intros [H|[H|H]].
    + right. exists p. auto.
    + now left.
    + destruct (IH H) as [H'|[p' [Hp' Hc]]]; [now left|].
      right. exists p'. split; [now right | assumption].
Qed.

Lemma In_join_part sep parts p c :
  In p parts -> In c p -> In c (join sep parts).
Proof.
  induction parts as [|q rest IH]; simpl; [tauto|].
  intros [->|Hp] Hc.
  - destruct rest; [assumption|]. apply in_or_app. now left.
  - destruct rest as [|r rest]; [destruct Hp|].
    apply in_or_app. right. apply in_or_app. right. now apply IH.
Qed.

Lemma corpus_text_clean jokes c :
  In c (corpus_text jokes) ->
  c <> BACKSPACE /\ c <> DLE /\ c <> TILDE /\ c <> CARET.
Proof.
  unfold corpus_text, clean_jokes. intros H.
  apply In_join in H. destruct H as [[<-|[]]|[p [Hp Hc]]].
  - repeat split; discriminate.
  - apply in_map_iff in Hp. destruct Hp as [x [<- _]].
    apply In_removeChars in Hc. tauto.
Qed.

Lemma corpus_text_joke jokes x c :
  In x jokes -> In c (removeChars x) -> In c (corpus_text jokes).
Proof.
  intros Hx Hc. unfold corpus_text, clean_jokes.
  apply In_join_part with (p := removeChars x); [|assumption].
  now apply in_map.
Qed.

(** ** The code tables *)

Lemma In_enumerate_from {A} (l : list A) (s i : Z) (x : A) :
  In (i, x) (enumerate_from s l) <->
  exists n, i = s + Z.of_nat n /\ nth_error l n = Some x.
Proof.
  revert s. induction l as [|a l IH]; intros s; simpl.
  - split; [tauto|]. intros [[|n] [_ H]]; discriminate.
  - rewrite IH. split.
    + intros [H|[n [Hi Hn]]].
      * inversion H; subst. exists O. split; [lia | reflexivity].
      * exists (S n). split; [lia | assumption].
    + intros [[|n] [Hi Hn]]; simpl in Hn.
      * left. inversion Hn; subst. f_equal. lia.
      * right. exists n. split; [lia | assumption].
Qed.

Lemma length_enumerate_from {A} (l : list A) s :
  length (enumerate_from s l) = length l.
Proof. revert s. induction l; intros; simpl; auto. Qed.

Lemma fold_char_labels (l : list ascii) (i : Z) (d : @dict str Z) :
  NoDup l ->
  (forall c, In c l -> ~ In (chr c) (keys d)) ->
  fold_left (fun d '(i, ch) => set str_eqb d (chr ch) (i + 3))
            (enumerate_from i l) d
  = d ++ map (fun p => (chr (snd p), fst p + 3)) (enumerate_from i l).
Proof.
  revert i d. induction l as [|a l IH]; intros i d Hnd Hfresh; simpl.
  - now rewrite app_nil_r.
  - inversion Hnd as [|? ? Ha Hnd']; subst.
    rewrite (set_fresh str_eqb str_eqb_eq) by (apply Hfresh; now left).
    rewrite IH; [now rewrite <- app_assoc | assumption |].
    intros c Hc. unfold keys. rewrite map_app, in_app_iff. simpl.
    intros [H|[H|[]]].
    + apply (Hfresh c); [now right | assumption].
    + inversion H; subst. contradiction.
Qed.

Lemma fold_labels_char (l : list ascii) (i : Z) (d : @dict Z str) :
  (forall k, In k (keys d) -> k < i + 3) ->
  fold_left (fun d '(i, ch) => set Z.eqb d (i + 3) (chr ch))
            (enumerate_from i l) d
  = d ++ map (fun p => (fst p + 3, chr (snd p))) (enumerate_from i l).
Proof.
  revert i d. induction l as [|a l IH]; intros i d Hlt; simpl.
  - now rewrite app_nil_r.
  - rewrite (set_fresh Z.eqb Z.eqb_eq).
    2:{ intros H. apply Hlt in H. lia. }
    rewrite IH; [now rewrite <- app_assoc|].
    intros k. unfold keys. rewrite map_app, in_app_iff. simpl.
    intros [H|[H|[]]]; [apply Hlt in H|]; lia.
Qed.

Lemma keys_char_entries (chars : list ascii) s k :
  In k (keys (map (fun p : Z * ascii => (chr (snd p), fst p + 3))
                  (enumerate_from s chars))) ->
  exists c, k = chr c /\ In c chars.
Proof.
  unfold keys. rewrite map_map. simpl. rewrite in_map_iff.
  intros [[i c] [<- H]]. simpl. exists c. split; [reflexivity|].
  apply In_enumerate_from in H. destruct H as [n [_ Hn]].
  now apply nth_error_In in Hn.
Qed.

Lemma keys_label_entries (chars : list ascii) s k :
  In k (keys (map (fun p : Z * ascii => (fst p + 3, chr (snd p)))
                  (enumerate_from s chars))) ->
  s + 3 <= k.
Proof.
  unfold keys. rewrite map_map. simpl. rewrite in_map_iff.
  intros [[i c] [<- H]]. simpl.
  apply In_enumerate_from in H. destruct H as [n [-> _]]. lia.
Qed.

Lemma char_labels_table (chars : list ascii) :
  NoDup chars -> ~ In TILDE chars -> ~ In CARET chars ->
  char_labels chars = char_table chars.
Proof.
  intros Hnd Ht Hc. unfold char_labels, char_table, enumerate.
  rewrite fold_char_labels by (assumption || (intros ? ? [])). simpl.
  set (d := map _ _).
  assert (Hk : forall k, In k (keys d) -> exists c, k = chr c /\ In c chars)
    by (intros k; apply keys_char_entries).
  rewrite (set_fresh str_eqb str_eqb_eq d).
  2:{ intros H. apply Hk in H. destruct H as [c [H _]]. discriminate. }
  rewrite (set_fresh str_eqb str_eqb_eq (d ++ _) (chr TILDE)).
  2:{ unfold keys. rewrite map_app, in_app_iff. simpl.
      intros [H|[H|[]]]; [|discriminate].
      apply Hk in H. destruct H as [c [H Hin]]. inversion H; subst. auto. }
  rewrite (set_fresh str_eqb str_eqb_eq).
  2:{ unfold keys. rewrite !map_app, !in_app_iff. simpl.
      intros [[H|[H|[]]]|[H|[]]]; try discriminate.
      apply Hk in H. destruct H as [c [H Hin]]. inversion H; subst. auto. }
  now rewrite <- !app_assoc.
Qed.

Lemma labels_char_table (chars : list ascii) :
  labels_char chars = label_table chars.
Proof.
  unfold labels_char, label_table, enumerate.
  rewrite fold_labels_char by (intros ? []). simpl.
  set (d := map _ _).
  assert (Hk : forall k, In k (keys d) -> 3 <= k)
    by (intros k H; apply keys_label_entries in H; lia).
  rewrite (set_fresh Z.eqb Z.eqb_eq d).
  2:{ intros H. apply Hk in H. lia. }
  rewrite (set_fresh Z.eqb Z.eqb_eq (d ++ _) 1).
  2:{ unfold keys. rewrite map_app, in_app_iff. simpl.
      intros [H|[H|[]]]; [apply Hk in H|]; lia. }
  rewrite (set_fresh Z.eqb Z.eqb_eq).
  2:{ unfold keys. rewrite !map_app, !in_app_iff. simpl.
      intros [[H|[H|[]]]|[H|[]]]; [apply Hk in H| |]; lia. }
  now rewrite <- !app_assoc.
Qed.

Lemma NoDup_enumerate_fst {A} (l : list A) s :
  NoDup (map fst (enumerate_from s l)).
Proof.
  revert s. induction l as [|a l IH]; intros s; simpl; constructor; [|apply IH].
  rewrite in_map_iff. intros [[i x] [Hi H]]. simpl in Hi. subst i.
  apply In_enumerate_from in H. destruct H as [n [Hn _]]. lia.
Qed.

Lemma map_snd_enumerate_from {A} (l : list A) s :
  map snd (enumerate_from s l) = l.
Proof. revert s. induction l; intros; simpl; [|f_equal]; auto. Qed.

Lemma In_char_table chars k v :
  In (k, v) (char_table chars) <->
  (exists n c, nth_error chars n = Some c /\ k = chr c /\ v = Z.of_nat n + 3)
  \/ (k = PAD /\ v = 0) \/ (k = chr TILDE /\ v = 1) \/ (k = chr CARET /\ v = 2).
Proof.
  unfold char_table, enumerate. rewrite in_app_iff, in_map_iff. simpl.
  split.
  - intros [[[i c] [H Hin]]|[H|[H|[H|[]]]]]; inversion H; subst; auto 6.
    apply In_enumerate_from in Hin. destruct Hin as [n [-> Hn]].
    left. exists n, c. simpl. auto.
  - intros [[n [c [Hn [-> ->]]]]|[[-> ->]|[[-> ->]|[-> ->]]]]; auto 6.
    left. exists (Z.of_nat n, c). split; [reflexivity|].
    apply In_enumerate_from. exists n. auto.
Qed.

Lemma In_label_table chars v k :
  In (v, k) (label_table chars) <->
  (exists n c, nth_error chars n = Some c /\ k = chr c /\ v = Z.of_nat n + 3)
  \/ (k = PAD /\ v = 0) \/ (k = chr TILDE /\ v = 1) \/ (k = chr CARET /\ v = 2).
Proof.
  unfold label_table, enumerate. rewrite in_app_iff, in_map_iff. simpl.
  split.
  - intros [[[i c] [H Hin]]|[H|[H|[H|[]]]]]; inversion H; subst; auto 6.
    apply In_enumerate_from in Hin. destruct Hin as [n [-> Hn]].
    left. exists n, c. simpl. auto.
  - intros [[n [c [Hn [-> ->]]]]|[[-> ->]|[[-> ->]|[-> ->]]]]; auto 6.
    left. exists (Z.of_nat n, c). split; [reflexivity|].
    apply In_enumerate_from. exists n. auto.
Qed.

Lemma len_char_table (chars : list ascii) : len (char_table chars) = (length chars + 3)%nat.
Proof.
  unfold len, char_table, enumerate.
  now rewrite length_app, length_map, length_enumerate_from.
Qed.

Lemma values_char_table (chars : list ascii) :
  values (char_table chars)
  = map (fun i => i + 3) (map fst (enumerate chars)) ++ [0; 1; 2].
Proof.
  unfold values, char_table. rewrite map_app, !map_map. reflexivity.
Qed.

Lemma keys_char_table (chars : list ascii) :
  keys (char_table chars) = map chr chars ++ [PAD; chr TILDE; chr CARET].
Proof.
  unfold keys, char_table, enumerate. rewrite map_app, map_map. simpl.
  rewrite <- (map_map snd chr). now rewrite map_snd_enumerate_from.
Qed.

Lemma keys_label_table (chars : list ascii) :
  keys (label_table chars)
  = map (fun i => i + 3) (map fst (enumerate chars)) ++ [0; 1; 2].
Proof.
  unfold keys, label_table. rewrite map_app, !map_map. reflexivity.
Qed.

Lemma NoDup_codes (chars : list ascii) :
  NoDup (map (fun i => i + 3) (map fst (enumerate chars)) ++ [0; 1; 2]).
Proof.
  apply NoDup_app.
  - apply Finite.Injective_map_NoDup; [|apply NoDup_enumerate_fst].
    intros a b. lia.
  - repeat constructor; simpl; lia.
  - intros z. rewrite map_map, in_map_iff. intros [[i c] [<- H]].
    apply In_enumerate_from in H. destruct H as [n [Hn _]].
    simpl in *. lia.
Qed.

Lemma NoDup_keys_char_table chars :
  NoDup chars -> ~ In TILDE chars -> ~ In CARET chars ->
  NoDup (keys (char_table chars)).
Proof.
  intros Hnd Ht Hc. rewrite keys_char_table. apply NoDup_app.
  - apply Finite.Injective_map_NoDup; [|assumption].
    intros a b H. now inversion H.
  - repeat constructor; simpl; intros H;
      repeat (destruct H as [H|H]; try discriminate); assumption.
  - intros k. rewrite in_map_iff. intros [c [<- Hin]]. simpl.
    intros [H|[H|[H|[]]]]; inversion H; subst; contradiction.
Qed.

Lemma In_codes_iff (chars : list ascii) code :
  In code (map (fun i => i + 3) (map fst (enumerate chars)) ++ [0; 1; 2])
  <-> is_class (length chars + 3) code.
Proof.
  rewrite in_app_iff, map_map, in_map_iff. unfold is_class, enumerate.
  split.
  - intros [[[i c] [<- H]]|H].
    + apply In_enumerate_from in H. destruct H as [n [-> Hn]].
      assert (n < length chars)%nat by (apply nth_error_Some; congruence).
      simpl. lia.
    + simpl in H. lia.
  - intros [Hlo Hhi].
    destruct (Z_lt_le_dec code 3) as [Hs|Hs]; [right; simpl; lia|].
    left.
    destruct (nth_error chars (Z.to_nat (code - 3))) as [c|] eqn:E.
    + exists (code - 3, c). split; [simpl; lia|].
      apply In_enumerate_from. exists (Z.to_nat (code - 3)).
      split; [lia | assumption].
    + apply nth_error_None in E. lia.
Qed.

(** What [list(set(text))] of a cleaned corpus guarantees. *)
Lemma chars_of_corpus jokes chars :
  list_of_set (corpus_text jokes) chars ->
  NoDup chars /\ ~ In TILDE chars /\ ~ In CARET chars.
Proof.
  intros [Hnd Hin]. split; [assumption|].
  split; intros H; apply Hin, corpus_text_clean in H; tauto.
Qed.

Lemma char_labels_corpus jokes chars :
  list_of_set (corpus_text jokes) chars ->
  char_labels chars = char_table chars.
Proof.
  intros H. apply chars_of_corpus in H. now apply char_labels_table.
Qed.

Lemma get_char_table chars k v :
  NoDup chars -> ~ In TILDE chars -> ~ In CARET chars ->
  (get str_eqb (char_table chars) k = Some v <-> In (k, v) (char_table chars)).
Proof.
  intros Hnd Ht Hc. split.
  - apply get_Some_In, str_eqb_eq.
  - apply In_get_NoDup; [apply str_eqb_eq|]. now apply NoDup_keys_char_table.
Qed.

Lemma get_label_table chars v k :
  get Z.eqb (label_table chars) v = Some k <-> In (v, k) (label_table chars).
Proof.
  split.
  - apply get_Some_In, Z.eqb_eq.
  - apply In_get_NoDup; [apply Z.eqb_eq|].
    rewrite keys_label_table. apply NoDup_codes.
Qed.

Lemma is_class_char_table chars k v :
  In (k, v) (char_table chars) -> is_class (len (char_table chars)) v.
Proof.
  rewrite In_char_table, len_char_table. unfold is_class.
  intros [[n [c [Hn [_ ->]]]]|[[_ ->]|[[_ ->]|[_ ->]]]]; try lia.
  assert (n < length chars)%nat by (apply nth_error_Some; congruence). lia.
Qed.

(** ** Cleaning then marking *)

Lemma count_occ_removeChars x c :
  c = TILDE \/ c = CARET -> count_occ ascii_dec (removeChars x) c = 0%nat.
Proof.
  intros H. apply count_occ_not_In. rewrite In_removeChars.
  destruct H; subst; tauto.
Qed.

(** C6. Cleaning a raw example and then marking it gives a string that
    starts with the Start sentinel, ends with the End sentinel, contains
    each sentinel exactly once, and contains neither the backspace nor the
    [\x10] control character. *)
Theorem clean_then_mark (x : str) :
  let m := mark (removeChars x) in
  hd_error m = Some TILDE /\
  last m BACKSPACE = CARET /\
  count_occ ascii_dec m TILDE = 1%nat /\
  count_occ ascii_dec m CARET = 1%nat /\
  ~ In BACKSPACE m /\ ~ In DLE m /\
  exists body, m = [TILDE] ++ body ++ [CARET] /\
    forall c, In c body ->
      c <> BACKSPACE /\ c <> DLE /\ c <> TILDE /\ c <> CARET.
Proof.
  unfold mark. cbn zeta. repeat split.
  - rewrite app_assoc. apply last_last.
  - rewrite !count_occ_app, count_occ_removeChars by auto. reflexivity.
  - rewrite !count_occ_app, count_occ_removeChars by auto. reflexivity.
  - rewrite !in_app_iff, In_removeChars. simpl.
    intros [[H|[]]|[H|[H|[]]]]; try discriminate. tauto.
  - rewrite !in_app_iff, In_removeChars. simpl.
    intros [[H|[]]|[H|[H|[]]]]; try discriminate. tauto.
  - exists (removeChars x). split; [reflexivity|].
    intros c Hc. apply In_removeChars in Hc. tauto.
Qed.

(** ** The vocabulary *)

Lemma length_chars_distinct text chars :
  list_of_set text chars -> length chars = length (nodup ascii_dec text).
Proof.
  intros [Hnd Hin]. apply Permutation_length, NoDup_Permutation.
  - assumption.
  - apply NoDup_nodup.
  - intros c. rewrite nodup_In. apply Hin.
Qed.

(** C4. The table built from a cleaned corpus has [3 + d] entries, where
    [d] is the number of distinct characters of the corpus text; its codes
    are exactly the integers of [[0, size)], each used once; ['PAD'], ['~']
    and ['^'] have codes 0, 1 and 2; every corpus character has one code,
    and that code is at least 3. *)
Theorem vocabulary_size_and_codes (jokes : list str) (chars : list ascii) :
  list_of_set (corpus_text jokes) chars ->
  let vocab := char_labels chars in
  len vocab = (3 + length (nodup ascii_dec (corpus_text jokes)))%nat /\
  (forall code, In code (values vocab) <-> is_class (len vocab) code) /\
  NoDup (values vocab) /\
  NoDup (keys vocab) /\
  get str_eqb vocab PAD = Some 0 /\
  get str_eqb vocab (chr TILDE) = Some 1 /\
  get str_eqb vocab (chr CARET) = Some 2 /\
  forall c, In c (corpus_text jokes) ->
    exists code, get str_eqb vocab (chr c) = Some code /\ 3 <= code /\
      forall code', In (chr c, code') vocab -> code' = code.
Proof.
  intros Hset. cbn zeta.
  rewrite (char_labels_corpus _ _ Hset).
  pose proof (length_chars_distinct _ _ Hset) as Hlen.
  pose proof (chars_of_corpus _ _ Hset) as [Hnd [Ht Hc]].
  pose proof (get_char_table chars) as Hget.
  rewrite len_char_table, values_char_table.
  split; [lia|].
  split; [intros code; rewrite In_codes_iff; reflexivity|].
  split; [apply NoDup_codes|].
  split; [now apply NoDup_keys_char_table|].
  split; [apply Hget; auto; apply In_char_table; auto|].
  split; [apply Hget; auto; apply In_char_table; auto|].
  split; [apply Hget; auto; apply In_char_table; auto 6|].
  intros c Hin. apply (proj2 Hset) in Hin.
  destruct (In_nth_error _ _ Hin) as [n Hn].
  exists (Z.of_nat n + 3).
  assert (Hg : get str_eqb (char_table chars) (chr c) = Some (Z.of_nat n + 3)).
  { apply Hget; auto. apply In_char_table. left. eauto. }
  split; [assumption|]. split; [lia|].
  intros code' Hin'. apply Hget in Hin'; auto. congruence.
Qed.

Lemma vocabulary_size_and_codes_witness :
  list_of_set (corpus_text example_jokes) example_chars /\
  len (char_labels example_chars) = 7%nat /\
  get str_eqb (char_labels example_chars) (chr CARET) = Some 2.
Proof.
  pose proof (vocabulary_size_and_codes example_jokes example_chars) as H.
  assert (Hset : list_of_set (corpus_text example_jokes) example_chars).
  { split.
    - repeat constructor; simpl; intuition discriminate.
    - intros c. vm_compute. tauto. }
  specialize (H Hset). cbn zeta in H.
  split; [exact Hset|].
  destruct H as [Hlen [_ [_ [_ [_ [_ [Hend _]]]]]]].
  split; [exact Hlen | exact Hend].
Defined.

(** C7. Every character of the built vocabulary, a corpus character or
    one of the two sentinels, is returned by decoding its code. *)
Theorem decode_encode (jokes : list str) (chars : list ascii) :
  list_of_set (corpus_text jokes) chars ->
  forall c, In c (corpus_text jokes) \/ c = TILDE \/ c = CARET ->
    exists code,
      encode chars (chr c) = Some code /\ decode chars code = Some (chr c).
Proof.
  intros Hset c Hc. unfold encode, decode.
  rewrite (char_labels_corpus _ _ Hset), labels_char_table.
  pose proof (chars_of_corpus _ _ Hset) as [Hnd [Ht Hcar]].
  assert (Hex : exists code, In (chr c, code) (char_table chars) /\
                             In (code, chr c) (label_table chars)).
  { destruct Hc as [Hc|[->| ->]].
    - apply (proj2 Hset) in Hc. destruct (In_nth_error _ _ Hc) as [n Hn].
      exists (Z.of_nat n + 3). rewrite In_char_table, In_label_table.
      split; left; eauto.
    - exists 1. rewrite In_char_table, In_label_table. auto 6.
    - exists 2. rewrite In_char_table, In_label_table. auto 6. }
  destruct Hex as [code [H1 H2]]. exists code. split.
  - now apply get_char_table.
  - now apply get_label_table.
Qed.

Lemma decode_encode_witness :
  list_of_set (corpus_text example_jokes) example_chars /\
  exists code,
    encode example_chars (chr "h") = Some code /\
    decode example_chars code = Some (chr "h").
Proof.
  assert (Hset : list_of_set (corpus_text example_jokes) example_chars).
  { split.
    - repeat constructor; simpl; intuition discriminate.
    - intros c. vm_compute. tauto. }
  split; [exact Hset|].
  apply (decode_encode example_jokes example_chars Hset).
  left. vm_compute. tauto.
Defined.

(** ** The reverse-lookup loop *)

Lemma reverse_lookup_found (d : @dict str Z) k v st :
  NoDup (values d) -> In (k, v) d ->
  reverse_lookup (items d) v st = mkLookup k (Some k).
Proof.
  unfold items. revert st. induction d as [|[k' v'] d IH]; intros st Hnd Hin.
  - destruct Hin.
  - simpl in *. inversion Hnd as [|? ? Hv Hnd']; subst.
    destruct Hin as [H|H].
    + inversion H; subst. now rewrite Z.eqb_refl.
    + destruct (v' =? v) eqn:E.
      * apply Z.eqb_eq in E. subst. exfalso. apply Hv.
        change v with (snd (k, v)). now apply in_map.
      * now apply IH.
Qed.

Lemma reverse_lookup_missing (d : @dict str Z) v st :
  ~ In v (values d) -> d <> [] ->
  reverse_lookup (items d) v st
  = mkLookup (out_char st) (Some (fst (last d ([], 0)))).
Proof.
  unfold items. revert st. induction d as [|[k' v'] d IH]; intros st Hv Hne.
  - congruence.
  - simpl in Hv. cbn [reverse_lookup].
    destruct (v' =? v) eqn:E; [apply Z.eqb_eq in E; tauto|].
    destruct d as [|e d]; [reflexivity|].
    rewrite IH by (tauto || discriminate). reflexivity.
Qed.

Lemma reverse_lookup_match (d : @dict str Z) v st :
  In v (values d) ->
  exists k, char (reverse_lookup (items d) v st) = Some k /\ In (k, v) d.
Proof.
  unfold items. revert st. induction d as [|[k' v'] d IH]; intros st Hv.
  - destruct Hv.
  - cbn [reverse_lookup]. destruct (v' =? v) eqn:E.
    + apply Z.eqb_eq in E. subst. exists k'. simpl. auto.
    + simpl in Hv. destruct Hv as [Hv|Hv].
      * apply Z.eqb_neq in E. contradiction.
      * destruct (IH (mkLookup (out_char st) (Some k')) Hv) as [k [Hk Hin]].
        exists k. split; [assumption | now right].
Qed.

Lemma reverse_lookup_binds (d : @dict str Z) v st :
  d <> [] ->
  exists k, char (reverse_lookup (items d) v st) = Some k /\ In k (keys d).
Proof.
  unfold items. revert st. induction d as [|[k' v'] d IH]; intros st Hne.
  - congruence.
  - cbn [reverse_lookup]. destruct (v' =? v).
    + exists k'. simpl. auto.
    + destruct d as [|e d].
      * exists k'. simpl. auto.
      * destruct (IH (mkLookup (out_char st) (Some k'))) as [k [Hk Hin]];
          [discriminate|].
        exists k. split; [assumption | now right].
Qed.

(** C10. In the forward table code 0 belongs to the three-character key
    ['PAD'] and to no single character; decoding 0 gives ['PAD']; codes 1
    and 2 belong to ['~'] and ['^'] only, in the table, in its inverse and
    in the reverse lookup of the generation loop. *)
Theorem pad_keyed_by_string (jokes : list str) (chars : list ascii) :
  list_of_set (corpus_text jokes) chars ->
  let vocab := char_labels chars in
  length PAD = 3%nat /\
  (forall k, encode chars k = Some 0 <-> k = PAD) /\
  (forall k, encode chars k = Some 1 <-> k = chr TILDE) /\
  (forall k, encode chars k = Some 2 <-> k = chr CARET) /\
  (forall c, encode chars (chr c) <> Some 0) /\
  decode chars 0 = Some PAD /\
  decode chars 1 = Some (chr TILDE) /\
  decode chars 2 = Some (chr CARET) /\
  (forall st, reverse_lookup (items vocab) 0 st = mkLookup PAD (Some PAD)) /\
  (forall st, reverse_lookup (items vocab) 1 st
              = mkLookup (chr TILDE) (Some (chr TILDE))) /\
  (forall st, reverse_lookup (items vocab) 2 st
              = mkLookup (chr CARET) (Some (chr CARET))).
Proof.
  intros Hset. cbn zeta. unfold encode, decode.
  rewrite (char_labels_corpus _ _ Hset), labels_char_table.
  pose proof (chars_of_corpus _ _ Hset) as [Hnd [Ht Hc]].
  assert (Hget : forall k v, get str_eqb (char_table chars) k = Some v <->
                             In (k, v) (char_table chars))
    by (intros; now apply get_char_table).
  assert (Hrow : forall k v, 0 <= v < 3 ->
            (In (k, v) (char_table chars) <->
             (k = PAD /\ v = 0) \/ (k = chr TILDE /\ v = 1)
             \/ (k = chr CARET /\ v = 2))).
  { intros k v Hv. rewrite In_char_table. split; [|tauto].
    intros [[n [c [_ [_ ->]]]]|H]; [lia | exact H]. }
  assert (Hvals : NoDup (values (char_table chars)))
    by (rewrite values_char_table; apply NoDup_codes).
  split; [reflexivity|].
  split; [intros k; rewrite Hget, Hrow by lia; intuition (try lia)|].
  split; [intros k; rewrite Hget, Hrow by lia; intuition (try lia)|].
  split; [intros k; rewrite Hget, Hrow by lia; intuition (try lia)|].
  split.
  { intros c. rewrite Hget, Hrow by lia.
    intros [[H _]|[[_ H]|[_ H]]]; discriminate. }
  split; [apply get_label_table, In_label_table; auto|].
  split; [apply get_label_table, In_label_table; auto|].
  split; [apply get_label_table, In_label_table; auto 6|].
  split; [|split]; intros st; apply reverse_lookup_found; try assumption;
    apply Hrow; try lia; auto.
Qed.

Lemma pad_keyed_by_string_witness :
  list_of_set (corpus_text example_jokes) example_chars /\
  decode example_chars 0 = Some PAD /\
  forall c, encode example_chars (chr c) <> Some 0.
Proof.
  assert (Hset : list_of_set (corpus_text example_jokes) example_chars).
  { split.
    - repeat constructor; simpl; intuition discriminate.
    - intros c. vm_compute. tauto. }
  destruct (pad_keyed_by_string example_jokes example_chars Hset)
    as [_ [_ [_ [_ [Hno [Hdec _]]]]]].
  split; [exact Hset|]. split; [exact Hdec | exact Hno].
Defined.

(** ** The library calls *)

Lemma traverse_Some {A B} (f : A -> option B) (P : B -> Prop) (l : list A) :
  (forall x, In x l -> exists y, f x = Some y /\ P y) ->
  exists ys, traverse f l = Some ys /\ Forall P ys /\ length ys = length l.
Proof.
  induction l as [|a l IH]; intros H; simpl.
  - exists []. auto.
  - destruct (H a (or_introl eq_refl)) as [y [Hy HP]]. rewrite Hy.
    destruct IH as [ys [Hys [HF Hlen]]]; [intros x Hx; apply H; now right|].
    rewrite Hys. exists (y :: ys). simpl. auto.
Qed.

Lemma traverse_map {A B} (f : A -> option B) (g : A -> B) (l : list A) :
  (forall x, In x l -> f x = Some (g x)) -> traverse f l = Some (map g l).
Proof.
  induction l as [|a l IH]; intros H; simpl; [reflexivity|].
  rewrite (H a) by now left. rewrite IH; [reflexivity|].
  intros x Hx. apply H. now right.
Qed.

Lemma to_categorical_Some (y : list Z) (n : nat) :
  (0 < n)%nat -> Forall (is_class n) y ->
  to_categorical y n = Some (map (one_hot n) y).
Proof.
  intros Hn H. unfold to_categorical.
  replace (n =? 0)%nat with false by (symmetry; apply Nat.eqb_neq; lia).
  rewrite Forall_forall in H. unfold is_class in H.
  replace (forallb _ y) with true.
  - f_equal. apply map_ext_in. intros c Hc.
    rewrite Z.mod_small by (apply H, Hc). reflexivity.
  - symmetry. apply forallb_forall. intros c Hc. specialize (H c Hc).
    apply andb_true_intro. split; [apply Z.leb_le | apply Z.ltb_lt]; lia.
Qed.

(** With a positive width [pad_sequences] does not raise: it returns the
    last [maxlen] values behind as many zeros as are missing. *)
Lemma pad_sequences_positive (s : list Z) (maxlen : nat) :
  (0 < maxlen)%nat ->
  pad_sequences s maxlen
  = Some (repeat 0 (maxlen - length s) ++ skipn (length s - maxlen) s).
Proof.
  intros Hpos. unfold pad_sequences.
  destruct s as [|x s'].
  - simpl. now rewrite app_nil_r, Nat.sub_0_r.
  - set (s := x :: s'). destruct maxlen as [|m]; [lia|].
    cbv zeta. rewrite length_skipn.
    rewrite Nat.min_l by lia.
    rewrite Nat.eqb_refl. do 3 f_equal. lia.
Qed.


Lemma Forall_padded (P : Z -> Prop) (s : list Z) (maxlen : nat) :
  P 0 -> Forall P s ->
  Forall P (repeat 0 (maxlen - length s) ++ skipn (length s - maxlen) s).
Proof.
  intros H0 Hs. apply Forall_app. split.
  - apply Forall_forall. intros x Hx. apply repeat_spec in Hx. now subst.
  - rewrite Forall_forall in *. intros x Hx. apply Hs.
    rewrite <- (firstn_skipn (length s - maxlen) s). apply in_or_app. now right.
Qed.

(** ** The generation loop *)

Section GenerateFacts.
Variable model : list (list Z) -> Z.
Variable mapping : @dict str Z.
Variable seq_length : nat.
Hypothesis mapping_nonempty : mapping <> [].
Hypothesis mapping_classes :
  forall k v, In (k, v) mapping -> is_class (len mapping) v.
Hypothesis seq_length_positive : (0 < seq_length)%nat.

Lemma encode_text_Some (text : str) :
  encodable mapping text ->
  exists codes, encode_text mapping text = Some codes /\
                Forall (is_class (len mapping)) codes /\
                length codes = length text.
Proof.
  intros Henc. apply traverse_Some. intros c Hc.
  unfold encodable in Henc. rewrite Forall_forall in Henc.
  destruct (In_keys_get str_eqb str_eqb_eq mapping (chr c) (Henc c Hc))
    as [v Hv].
  exists v. split; [assumption|].
  eapply mapping_classes, get_Some_In; [apply str_eqb_eq | exact Hv].
Qed.

(** With a positive window width a step on an encodable text does not
    raise: it appends the key the reverse-lookup loop leaves in [char]. *)
Lemma generate_step_spec (in_text : str) :
  encodable mapping in_text ->
  exists onehot k,
    char (reverse_lookup (items mapping) (model onehot) (mkLookup [] None))
      = Some k /\
    In k (keys mapping) /\
    generate_step model mapping seq_length in_text = Some (in_text ++ k).
Proof.
  intros Henc. unfold generate_step.
  destruct (encode_text_Some in_text Henc) as [codes [-> [Hcl _]]].
  assert (Hlen : (0 < len mapping)%nat).
  { unfold len. destruct mapping; [congruence | simpl; lia]. }
  assert (H0 : is_class (len mapping) 0) by (unfold is_class; lia).
  rewrite pad_sequences_positive by assumption.
  rewrite to_categorical_Some by (assumption || now apply Forall_padded).
  set (onehot := map _ _).
  destruct (reverse_lookup_binds mapping (model onehot) (mkLookup [] None)
              mapping_nonempty) as [k [Hk Hin]].
  exists onehot, k. rewrite Hk. auto.
Qed.
End GenerateFacts.

Lemma encodable_app mapping (a b : str) :
  encodable mapping a -> encodable mapping b -> encodable mapping (a ++ b).
Proof. intros Ha Hb. apply Forall_app. now split. Qed.

Lemma last_char_table (chars : list ascii) :
  last (char_table chars) ([], 0) = (chr CARET, 2).
Proof.
  unfold char_table.
  change [(PAD, 0); (chr TILDE, 1); (chr CARET, 2)]
    with ([(PAD, 0); (chr TILDE, 1)] ++ [(chr CARET, 2)]).
  rewrite app_assoc. apply last_last.
Qed.

Lemma char_table_nonempty (chars : list ascii) : char_table chars <> [].
Proof.
  unfold char_table. intros H. apply app_eq_nil in H.
  destruct H as [_ H]. discriminate.
Qed.

Lemma caret_encodable (chars : list ascii) :
  encodable (char_table chars) (chr CARET).
Proof.
  repeat constructor. rewrite keys_char_table. apply in_or_app.
  right. simpl. auto.
Qed.

(** C1, as the code has it. The loop of [generate_seq] does not test for
    the End sentinel: with a window width of at least 1 and a model that
    always predicts the End code, a call with budget [n_chars] appends the
    End sentinel [n_chars] times, which is once only when [n_chars = 1]. *)
Theorem generate_with_end_stub (jokes : list str) (chars : list ascii) :
  list_of_set (corpus_text jokes) chars ->
  forall (model : list (list Z) -> Z) (seq_length : nat) (seed_text : str)
         (n_chars : nat),
    (0 < seq_length)%nat ->
    (forall w, model w = 2) ->
    encodable (char_labels chars) seed_text ->
    generate_seq model (char_labels chars) seq_length seed_text n_chars
    = Some (seed_text ++ repeat CARET n_chars).
Proof.
  intros Hset model W seed n HW Hmodel.
  rewrite (char_labels_corpus _ _ Hset). unfold generate_seq.
  revert seed. induction n as [|n IH]; intros seed Henc; simpl.
  - now rewrite app_nil_r.
  - destruct (generate_step_spec model (char_table chars) W
                (char_table_nonempty chars) (is_class_char_table chars) HW
                seed Henc) as [onehot [k [Hk [_ ->]]]].
    rewrite Hmodel in Hk.
    rewrite (reverse_lookup_found (char_table chars) (chr CARET) 2) in Hk.
    + injection Hk as <-. rewrite IH.
      * now rewrite <- app_assoc.
      * apply encodable_app; [assumption | apply caret_encodable].
    + rewrite values_char_table. apply NoDup_codes.
    + apply In_char_table. auto 6.
Qed.

Lemma generate_with_end_stub_witness :
  list_of_set (corpus_text example_jokes) example_chars /\
  generate_seq (fun _ => 2) (char_labels example_chars) 20 (lit "hi") 3
  = Some (lit "hi^^^").
Proof.
  assert (Hset : list_of_set (corpus_text example_jokes) example_chars).
  { split.
    - repeat constructor; simpl; intuition discriminate.
    - intros c. vm_compute. tauto. }
  split; [exact Hset|].
  apply (generate_with_end_stub example_jokes example_chars Hset
           (fun _ => 2) 20%nat (lit "hi") 3%nat).
  - lia.
  - reflexivity.
  - repeat constructor; vm_compute; tauto.
Defined.

(** C1 fails as stated: with the stub that always predicts End and a budget
    of three characters, the call appends three End sentinels, not one. *)
Lemma generate_stops_at_end_counterexample :
  generate_seq (fun _ => 2) (char_labels example_chars) 20 (lit "hi") 3
  = Some (lit "hi^^^") /\
  lit "hi^^^" <> lit "hi" ++ [CARET].
Proof. split; [vm_compute; reflexivity | discriminate]. Qed.

(** C9, as the code has it. Take a window width of at least 1, a table
    whose codes are classes of the table and a model whose predicted class
    is always a code of the table that belongs to single-character keys
    only. Then a call on an
    encodable seed runs [n_chars] iterations, appends one character of the
    table in each, and returns a string of length
    [len(seed_text) + n_chars]. *)
Theorem generate_seq_length (model : list (list Z) -> Z)
  (mapping : @dict str Z) (seq_length : nat) (seed_text : str)
  (n_chars : nat) :
  (0 < seq_length)%nat ->
  (forall w, In (model w) (values mapping) /\
             forall k, In (k, model w) mapping -> length k = 1%nat) ->
  (forall k v, In (k, v) mapping -> is_class (len mapping) v) ->
  encodable mapping seed_text ->
  exists out,
    generate_seq model mapping seq_length seed_text n_chars
      = Some (seed_text ++ out) /\
    length out = n_chars /\
    encodable mapping out /\
    length (seed_text ++ out) = (length seed_text + n_chars)%nat.
Proof.
  intros HW Hmodel Hcls. unfold generate_seq.
  assert (Hne : mapping <> []).
  { intros ->. exact (proj1 (Hmodel [])). }
  revert seed_text. induction n_chars as [|n IH]; intros seed Henc; simpl.
  - exists []. rewrite app_nil_r. repeat split; auto. constructor.
  - destruct (generate_step_spec model mapping seq_length Hne Hcls HW
                seed Henc) as [onehot [k [Hk [_ ->]]]].
    destruct (Hmodel onehot) as [Hval Hsingle].
    destruct (reverse_lookup_match mapping (model onehot) (mkLookup [] None)
                Hval) as [k' [Hk' Hin]].
    rewrite Hk in Hk'. injection Hk' as <-.
    assert (Hkenc : encodable mapping k).
    { specialize (Hsingle k Hin).
      destruct k as [|c [|? ?]]; try discriminate.
      repeat constructor. unfold keys. apply in_map_iff.
      exists ([c], model onehot). auto. }
    destruct (IH (seed ++ k) (encodable_app _ _ _ Henc Hkenc))
      as [out [-> [Hout [Hoenc _]]]].
    exists (k ++ out). rewrite <- app_assoc. split; [reflexivity|].
    rewrite !length_app, (Hsingle k Hin), Hout.
    split; [reflexivity|].
    split; [now apply encodable_app | lia].
Qed.

Lemma generate_seq_length_witness :
  exists out,
    generate_seq (fun _ => 3) (char_labels example_chars) 20 (lit "hi") 5
      = Some (lit "hi" ++ out) /\
    length out = 5%nat.
Proof.
  destruct (generate_seq_length (fun _ => 3) (char_labels example_chars)
              20%nat (lit "hi") 5%nat) as [out [H [Hlen _]]].
  - lia.
  - intros _. split; [vm_compute; tauto|].
    vm_compute. intros k H.
    repeat (destruct H as [H|H]; [inversion H; reflexivity|]). destruct H.
  - vm_compute. intros k v H.
    repeat (destruct H as [H|H];
            [inversion H; subst; split; [discriminate | reflexivity]|]).
    destruct H.
  - repeat constructor; vm_compute; tauto.
  - exists out. split; [exact H | exact Hlen].
Defined.

(** C9 fails as stated: on the notebook's own table a model that predicts
    class 0 makes one iteration append the three characters of ['PAD']. *)
Lemma generate_seq_length_counterexample :
  encodable (char_labels example_chars) (lit "hi") /\
  generate_seq (fun _ => 0) (char_labels example_chars) 20 (lit "hi") 1
  = Some (lit "hiPAD") /\
  length (lit "hiPAD") <> (length (lit "hi") + 1)%nat.
Proof.
  split; [repeat constructor; vm_compute; tauto|].
  split; [vm_compute; reflexivity | discriminate].
Qed.

(** C3, as the code has it. A code outside [[0, size)] is not a key of
    [labels_char], so decoding it raises. [generate_seq] does not decode
    through that table: when the model predicts such a code the reverse
    lookup finds no entry and, for a window width of at least 1, the step
    and the whole call complete without raising. *)
Theorem out_of_range_code (jokes : list str) (chars : list ascii) :
  list_of_set (corpus_text jokes) chars ->
  let vocab := char_labels chars in
  forall code, ~ is_class (len vocab) code ->
    decode chars code = None /\
    forall (model : list (list Z) -> Z) (seq_length : nat) (in_text : str),
      (0 < seq_length)%nat ->
      (forall w, model w = code) ->
      encodable vocab in_text ->
      (exists t, generate_step model vocab seq_length in_text = Some t) /\
      (forall n_chars, exists t,
          generate_seq model vocab seq_length in_text n_chars = Some t).
Proof.
  intros Hset. cbn zeta. rewrite (char_labels_corpus _ _ Hset).
  intros code Hcode. rewrite len_char_table in Hcode.
  assert (Hmiss : ~ In code (values (char_table chars)))
    by (rewrite values_char_table, In_codes_iff; exact Hcode).
  split.
  { unfold decode. rewrite labels_char_table.
    apply (get_not_in Z.eqb Z.eqb_eq).
    now rewrite keys_label_table, In_codes_iff. }
  intros model W in_text HW Hmodel Henc.
  assert (Hstep : forall text, encodable (char_table chars) text ->
            generate_step model (char_table chars) W text
            = Some (text ++ chr CARET)).
  { intros text Ht.
    destruct (generate_step_spec model (char_table chars) W
                (char_table_nonempty chars) (is_class_char_table chars) HW
                text Ht) as [onehot [k [Hk [_ ->]]]].
    rewrite Hmodel, reverse_lookup_missing in Hk
      by (assumption || apply char_table_nonempty).
    rewrite last_char_table in Hk. simpl in Hk. now injection Hk as <-. }
  split; [rewrite Hstep by assumption; eauto|].
  intros n. unfold generate_seq. revert in_text Henc.
  induction n as [|n IH]; intros text Ht; simpl; [eauto|].
  rewrite Hstep by assumption. apply IH.
  apply encodable_app; [assumption | apply caret_encodable].
Qed.

Lemma out_of_range_code_witness :
  list_of_set (corpus_text example_jokes) example_chars /\
  decode example_chars 99 = None /\
  exists t, generate_step (fun _ => 99) (char_labels example_chars) 20
              (lit "hi") = Some t.
Proof.
  assert (Hset : list_of_set (corpus_text example_jokes) example_chars).
  { split.
    - repeat constructor; simpl; intuition discriminate.
    - intros c. vm_compute. tauto. }
  split; [exact Hset|].
  destruct (out_of_range_code example_jokes example_chars Hset 99)
    as [Hdec Hgen].
  - vm_compute. intros [_ H]. discriminate.
  - split; [exact Hdec|].
    destruct (Hgen (fun _ => 99) 20%nat (lit "hi")) as [Hstep _].
    + lia.
    + reflexivity.
    + repeat constructor; vm_compute; tauto.
    + exact Hstep.
Defined.

(** C3 fails as stated: with a model that predicts the out-of-range code 99
    the call returns, and a character has been appended to the seed. *)
Lemma out_of_range_code_counterexample :
  ~ is_class (len (char_labels example_chars)) 99 /\
  encodable (char_labels example_chars) (lit "hi") /\
  generate_seq (fun _ => 99) (char_labels example_chars) 20 (lit "hi") 1
  = Some (lit "hi^") /\
  generate_seq (fun _ => 99) (char_labels example_chars) 20 (lit "hi") 1
  <> None.
Proof.
  split; [vm_compute; intros [_ H]; discriminate|].
  split; [repeat constructor; vm_compute; tauto|].
  split; [vm_compute; reflexivity | vm_compute; discriminate].
Qed.

(** ** Fixed-length truncation and padding *)




(** ** The training windows *)

Lemma for_each_app {A S} (l1 l2 : list A) (body : A -> S -> option S) st :
  for_each (l1 ++ l2) body st =
  match for_each l1 body st with
  | None => None
  | Some st' => for_each l2 body st'
  end.
Proof.
  revert st. induction l1 as [|a l1 IH]; intros st; simpl; [reflexivity|].
  destruct (body a st); [apply IH | reflexivity].
Qed.

Lemma Forall_firstn {A} (P : A -> Prop) (l : list A) n :
  Forall P l -> Forall P (firstn n l).
Proof.
  intros H. revert n. induction H; intros [|n]; simpl; auto.
Qed.

Lemma Forall_skipn {A} (P : A -> Prop) (l : list A) n :
  Forall P l -> Forall P (skipn n l).
Proof.
  intros H. revert n. induction H; intros [|n]; simpl; auto.
Qed.

Lemma Forall_slice {A} (P : A -> Prop) (l : list A) i j :
  Forall P l -> Forall P (slice l i j).
Proof.
  intros H. unfold slice. now apply Forall_firstn, Forall_skipn.
Qed.

Section WindowLoop.
Variables max_len num_classes : nat.
Variable seq : list Z.
Hypothesis seq_classes : Forall (is_class num_classes) seq.
Hypothesis classes_positive : (0 < num_classes)%nat.

Lemma window_loop_emit (idx : list nat) (st : windows) :
  (forall i, In i idx -> (i + max_len < length seq)%nat) ->
  for_each idx (window_body max_len num_classes seq) st
  = Some (mkWindows
      (input_sequences st
       ++ map (fun i => map (one_hot num_classes)
                            (slice seq i (i + max_len))) idx)
      (labels st ++ map (fun i => nth (i + max_len) seq 0) idx)).
Proof.
  revert st. induction idx as [|i idx IH]; intros st Hidx; simpl.
  - rewrite !app_nil_r. now destruct st.
  - unfold window_body at 1.
    replace (i + max_len <? length seq)%nat with true
      by (symmetry; apply Nat.ltb_lt, Hidx; now left).
    rewrite to_categorical_Some by (assumption || now apply Forall_slice).
    rewrite IH by (intros j Hj; apply Hidx; now right). simpl.
    now rewrite <- !app_assoc.
Qed.

Lemma window_loop_skip (idx : list nat) (st : windows) :
  (forall i, In i idx -> ~ (i + max_len < length seq)%nat) ->
  for_each idx (window_body max_len num_classes seq) st = Some st.
Proof.
  induction idx as [|i idx IH]; intros Hidx; simpl; [reflexivity|].
  unfold window_body at 1.
  replace (i + max_len <? length seq)%nat with false.
  - apply IH. intros j Hj. apply Hidx. now right.
  - symmetry. apply Nat.ltb_nlt, Hidx. now left.
Qed.
End WindowLoop.

Lemma map_nth_seq (l : list Z) (d : Z) :
  map (fun i => nth i l d) (seq 0 (length l)) = l.
Proof.
  induction l as [|a l IH]; simpl; [reflexivity|].
  f_equal. rewrite <- seq_shift, map_map. exact IH.
Qed.

Lemma labels_of_padded (max_len : nat) (codes : list Z) :
  map (fun i => nth (i + max_len) (padded_seq max_len codes) 0)
      (seq 0 (length codes + 1))
  = codes ++ [2].
Proof.
  transitivity (map (fun i => nth i (codes ++ [2]) 0)
                    (seq 0 (length (codes ++ [2])))); [|apply map_nth_seq].
  rewrite length_app. simpl. apply map_ext. intros i.
  unfold padded_seq. rewrite app_nth2; rewrite repeat_length; [|lia].
  f_equal. lia.
Qed.

Lemma window_example_spec (max_len num_classes : nat) (codes : list Z)
  (st : windows) :
  Forall (is_class num_classes) codes ->
  (3 <= num_classes)%nat ->
  window_example max_len num_classes codes st
  = Some (mkWindows
      (input_sequences st
       ++ map (fun i => map (one_hot num_classes)
                 (slice (padded_seq max_len codes) i (i + max_len)))
              (seq 0 (length codes + 1)))
      (labels st ++ codes ++ [2])).
Proof.
  intros Hcodes Hn. unfold window_example.
  assert (Hlen : length (padded_seq max_len codes)
                 = ((length codes + 1) + max_len)%nat).
  { unfold padded_seq. rewrite !length_app, repeat_length. simpl. lia. }
  assert (Hcl : Forall (is_class num_classes) (padded_seq max_len codes)).
  { unfold padded_seq. apply Forall_app. split.
    - apply Forall_forall. intros x Hx. apply repeat_spec in Hx. subst.
      unfold is_class. lia.
    - apply Forall_app. split; [assumption|].
      repeat constructor; lia. }
  rewrite Hlen at 1. rewrite seq_app, for_each_app.
  rewrite window_loop_emit; [|assumption|lia|].
  2:{ intros i Hi. apply in_seq in Hi. lia. }
  rewrite window_loop_skip.
  2:{ intros i Hi. apply in_seq in Hi. lia. }
  cbn [input_sequences labels]. now rewrite labels_of_padded.
Qed.

Lemma marked_encodable (jokes : list str) (chars : list ascii) (x : str) :
  list_of_set (corpus_text jokes) chars -> In x jokes ->
  encodable (char_table chars) (mark (removeChars x)).
Proof.
  intros Hset Hx. unfold encodable, mark. rewrite keys_char_table.
  apply Forall_app. split; [|apply Forall_app; split].
  - repeat constructor. apply in_or_app. right. simpl. auto.
  - apply Forall_forall. intros c Hc. apply in_or_app. left.
    apply in_map, (proj2 Hset), (corpus_text_joke jokes x); assumption.
  - repeat constructor. apply in_or_app. right. simpl. auto.
Qed.

(** C2, as the code has it. For an example with [L] characters between
    the sentinels the marked code sequence has [L + 2] codes, the loop
    appends one more End code behind it, and one pair is emitted for each
    offset [i] with [i + max_len < len(seq)]: that is [L + 3] pairs, whose
    labels are the marked sequence followed by the extra End code. *)
Theorem windows_per_example (jokes : list str) (chars : list ascii) :
  list_of_set (corpus_text jokes) chars ->
  forall x, In x jokes ->
  forall (max_len : nat) (st : windows),
    let L := length (removeChars x) in
    let n := len (char_labels chars) in
    exists codes ws,
      encode_text (char_labels chars) (mark (removeChars x)) = Some codes /\
      length codes = (L + 2)%nat /\
      window_example max_len n codes st
      = Some (mkWindows (input_sequences st ++ ws)
                        (labels st ++ codes ++ [2])) /\
      length ws = (L + 3)%nat /\
      length (codes ++ [2]) = (L + 3)%nat /\
      last (codes ++ [2]) 0 = 2 /\
      (forall i, (i + max_len < length (padded_seq max_len codes))%nat
                 <-> (i < L + 3)%nat) /\
      (forall i, (i < L + 3)%nat ->
         nth_error ws i
         = Some (map (one_hot n)
                     (slice (padded_seq max_len codes) i (i + max_len))) /\
         nth_error (codes ++ [2]) i
         = nth_error (padded_seq max_len codes) (i + max_len)).
Proof.
  intros Hset x Hx max_len st. cbn zeta.
  rewrite (char_labels_corpus _ _ Hset).
  destruct (encode_text_Some (char_table chars) (is_class_char_table chars)
              _ (marked_encodable jokes chars x Hset Hx))
    as [codes [Henc [Hcl Hlen]]].
  assert (Hlen' : length codes = (length (removeChars x) + 2)%nat).
  { rewrite Hlen. unfold mark. rewrite !length_app. simpl. lia. }
  exists codes.
  exists (map (fun i => map (one_hot (len (char_table chars)))
                 (slice (padded_seq max_len codes) i (i + max_len)))
              (seq 0 (length codes + 1))).
  split; [assumption|]. split; [assumption|].
  split.
  { apply window_example_spec; [assumption|]. rewrite len_char_table. lia. }
  split; [rewrite length_map, length_seq; lia|].
  split; [rewrite length_app; simpl; lia|].
  split; [apply last_last|].
  split.
  { intros i. unfold padded_seq. rewrite !length_app, repeat_length.
    simpl. lia. }
  intros i Hi. split.
  - rewrite nth_error_map, nth_error_seq.
    replace (i <? length codes + 1)%nat with true
      by (symmetry; apply Nat.ltb_lt; lia).
    reflexivity.
  - unfold padded_seq. rewrite (nth_error_app2 (repeat 1 max_len));
      rewrite repeat_length; [|lia].
    f_equal. lia.
Qed.

Lemma windows_per_example_witness :
  list_of_set (corpus_text example_jokes) example_chars /\
  In (lit "hi~") example_jokes /\
  exists codes ws,
    encode_text (char_labels example_chars) (mark (removeChars (lit "hi~")))
    = Some codes /\
    window_example 20 (len (char_labels example_chars)) codes (mkWindows [] [])
    = Some (mkWindows ws (codes ++ [2])) /\
    length ws = 5%nat.
Proof.
  assert (Hset : list_of_set (corpus_text example_jokes) example_chars).
  { split.
    - repeat constructor; simpl; intuition discriminate.
    - intros c. vm_compute. tauto. }
  assert (Hin : In (lit "hi~") example_jokes) by (simpl; auto).
  split; [exact Hset|]. split; [exact Hin|].
  destruct (windows_per_example example_jokes example_chars Hset
              (lit "hi~") Hin 20%nat (mkWindows [] []))
    as [codes [ws [Henc [_ [Hrun [Hlen _]]]]]].
  exists codes, ws. split; [exact Henc|]. split; [exact Hrun | exact Hlen].
Defined.

(** C2 fails as stated: the example ["hi"], of length 2, gives five pairs
    with window width 3, not three. *)
Lemma windows_per_example_counterexample :
  list_of_set (corpus_text [lit "hi"]) (lit "hi") /\
  option_map (fun r => (length (fst r), length (snd r)))
             (make_windows 3 (lit "hi") [lit "hi"])
  = Some (5%nat, 5%nat) /\
  5%nat <> (length (lit "hi") + 1)%nat.
Proof.
  split.
  { split.
    - repeat constructor; simpl; intuition discriminate.
    - intros c. vm_compute. tauto. }
  split; [vm_compute; reflexivity | discriminate].
Qed.

(** ** Batch padding *)

Lemma fold_max_spec (l : list Z) (x : Z) :
  let M := fold_left Z.max l x in
  x <= M /\ Forall (fun z => z <= M) l /\ (M = x \/ In M l).
Proof.
  revert x. induction l as [|a l IH]; intros x; simpl.
  - split; [lia|]. split; [constructor | now left].
  - destruct (IH (Z.max x a)) as [Hle [Hall Hin]].
    split; [lia|]. split; [constructor; [lia | assumption]|].
    destruct Hin as [Hin|Hin]; [|auto].
    destruct (Z.max_spec x a) as [[_ E]|[_ E]]; rewrite E in *.
    + right. left. congruence.
    + now left.
Qed.

Lemma py_max_spec (l : list Z) :
  l <> [] ->
  exists M, py_max l = Some M /\ In M l /\ Forall (fun z => z <= M) l.
Proof.
  destruct l as [|x l]; [congruence|]. intros _.
  exists (fold_left Z.max l x).
  destruct (fold_max_spec l x) as [Hle [Hall Hin]]. simpl.
  split; [reflexivity|].
  split; [destruct Hin as [->|Hin]; [now left | now right]|].
  now constructor.
Qed.

Lemma as_int32_small (z : Z) : - 2 ^ 31 <= z < 2 ^ 31 -> as_int32 z = z.
Proof. intros H. unfold as_int32. rewrite Z.mod_small; lia. Qed.

Lemma map_as_int32_small (row : list Z) :
  Forall (fun c => - 2 ^ 31 <= c < 2 ^ 31) row -> map as_int32 row = row.
Proof.
  induction 1 as [|c row Hc _ IH]; simpl; [reflexivity|].
  now rewrite as_int32_small, IH.
Qed.

Lemma Forall2_In_r {A B} (R : A -> B -> Prop) (l1 : list A) (l2 : list B) y :
  Forall2 R l1 l2 -> In y l2 -> exists x, In x l1 /\ R x y.
Proof.
  induction 1 as [|a b l1 l2 Hab _ IH]; simpl; [tauto|].
  intros [<-|Hy]; [eauto|].
  destruct (IH Hy) as [x [Hx HR]]. eauto.
Qed.

Lemma for_each_collect {A B} (g : A -> option B) (l : list A) (acc : list B) :
  for_each l (fun i feeds =>
                match g i with
                | None => None
                | Some f => Some (feeds ++ [f])
                end) acc
  = option_map (app acc) (traverse g l).
Proof.
  revert acc. induction l as [|a l IH]; intros acc; simpl.
  - now rewrite app_nil_r.
  - destruct (g a) as [f|]; [|reflexivity].
    rewrite IH. destruct (traverse g l); simpl; [|reflexivity].
    now rewrite <- app_assoc.
Qed.

Lemma for_each_ext {A S} (body1 body2 : A -> S -> option S) (l : list A) st :
  (forall i s, body1 i s = body2 i s) ->
  for_each l body1 st = for_each l body2 st.
Proof.
  intros H. revert st. induction l as [|a l IH]; intros st; simpl.
  - reflexivity.
  - rewrite H. destruct (body2 a st); [apply IH | reflexivity].
Qed.

(** The feeds of an epoch are the feeds of its batches, each computed from
    that batch alone. *)
Lemma train_epoch_batches (bs : nat) (input_seq output_seq : list (list Z))
  (all_idxs : list nat) :
  train_epoch bs input_seq output_seq all_idxs
  = traverse (batch_feed bs input_seq output_seq all_idxs)
             (range_step (length all_idxs) bs).
Proof.
  unfold train_epoch.
  rewrite (for_each_ext _
             (fun i feeds =>
                match batch_feed bs input_seq output_seq all_idxs i with
                | None => None
                | Some f => Some (feeds ++ [f])
                end)).
  - rewrite for_each_collect. now destruct (traverse _ _).
  - intros i s. unfold batch_feed. cbv zeta.
    destruct (traverse (nth_error input_seq) (slice all_idxs i (i + bs)));
      destruct (traverse (nth_error output_seq) (slice all_idxs i (i + bs)));
      reflexivity.
Qed.

Lemma padDataBatch_spec (data labels : list (list Z)) (maxlen : nat) :
  Forall (fun utter => (length utter <= maxlen)%nat) (data ++ labels) ->
  Forall (Forall (is_class 97)) data ->
  Forall (Forall (fun c => - 2 ^ 31 <= c < 2 ^ 31)) labels ->
  py_max (map (fun utter => Z.of_nat (length utter)) data)
  = Some (Z.of_nat maxlen) ->
  padDataBatch data labels
  = Some (map (fun utter => utter ++ repeat 0 (maxlen - length utter)) data,
          map (fun utter => Z.of_nat (length utter)) data,
          map (fun utter => utter ++ repeat 0 (maxlen - length utter)) labels).
Proof.
  intros Hlen Hdata Hlabels Hmax. unfold padDataBatch. rewrite Hmax.
  apply Forall_app in Hlen. destruct Hlen as [Hld Hll].
  rewrite Forall_forall in Hld, Hll, Hdata, Hlabels.
  assert (Hzero : forall (P : Z -> Prop) k, P 0 -> Forall P (repeat 0 k)).
  { intros P k H0. apply Forall_forall. intros z Hz.
    apply repeat_spec in Hz. now subst. }
  assert (Hpad : forall utter,
            (length utter <= maxlen)%nat ->
            Forall (fun c => - 2 ^ 31 <= c < 2 ^ 31) utter ->
            match np_pad_after utter (Z.of_nat maxlen - Z.of_nat (length utter))
            with
            | None => None
            | Some row => Some (map as_int32 row)
            end = Some (utter ++ repeat 0 (maxlen - length utter))).
  { intros utter Hle Hrange. unfold np_pad_after.
    replace (_ <? 0) with false by (symmetry; apply Z.ltb_ge; lia).
    replace (Z.to_nat (Z.of_nat maxlen - Z.of_nat (length utter)))
      with (maxlen - length utter)%nat by lia.
    rewrite map_as_int32_small; [reflexivity|].
    apply Forall_app. split; [assumption | apply Hzero; lia]. }
  rewrite (traverse_map _
             (fun utter => utter ++ repeat 0 (maxlen - length utter)) data).
  2:{ intros utter Hin. apply Hpad; [now apply Hld|].
      eapply Forall_impl; [|apply Hdata, Hin].
      unfold is_class. intros c Hc. simpl in Hc. lia. }
  rewrite (traverse_map _
             (fun utter => utter ++ repeat 0 (maxlen - length utter)) labels).
  2:{ intros utter Hin. apply Hpad; [now apply Hll | now apply Hlabels]. }
  destruct (traverse_Some (fun row => to_categorical row 97) (fun _ => True)
              (map (fun utter => utter ++ repeat 0 (maxlen - length utter))
                   data)) as [ys [-> _]]; [|reflexivity].
  intros row Hrow. apply in_map_iff in Hrow. destruct Hrow as [utter [<- Hin]].
  rewrite to_categorical_Some; [eauto|lia|].
  apply Forall_app. split; [now apply Hdata|].
  apply Hzero. unfold is_class. simpl. lia.
Qed.

(** C8, as the code has it. For a non-empty batch whose input codes are
    among the 97 classes [to_categorical] is called with, and whose label
    rows are as long as their input rows, [padDataBatch] returns every
    input and label row followed by zeros up to the greatest length in the
    batch, together with the vector of the true lengths of the inputs; and
    in the batch loop of [train] every feed is computed from its own batch
    only. *)
Theorem padDataBatch_pads (data labels : list (list Z)) :
  data <> [] ->
  Forall (Forall (is_class 97)) data ->
  Forall (Forall (fun c => - 2 ^ 31 <= c < 2 ^ 31)) labels ->
  Forall2 (fun utter lab => length lab = length utter) data labels ->
  (exists maxlen : nat,
     Forall (fun utter => (length utter <= maxlen)%nat) (data ++ labels) /\
     Exists (fun utter => length utter = maxlen) data /\
     padDataBatch data labels
     = Some
         (map (fun utter => utter ++ repeat 0 (maxlen - length utter)) data,
          map (fun utter => Z.of_nat (length utter)) data,
          map (fun utter => utter ++ repeat 0 (maxlen - length utter)) labels)
     /\
     Forall (fun row => length row = maxlen)
       (map (fun utter => utter ++ repeat 0 (maxlen - length utter))
            (data ++ labels))) /\
  (forall bs input_seq output_seq all_idxs,
     train_epoch bs input_seq output_seq all_idxs
     = traverse (batch_feed bs input_seq output_seq all_idxs)
                (range_step (length all_idxs) bs)).
Proof.
  intros Hne Hdata Hlabels Halign.
  split; [|apply train_epoch_batches].
  destruct (py_max_spec (map (fun utter => Z.of_nat (length utter)) data))
    as [M [Hmax [Hin Hall]]].
  { destruct data; [congruence | discriminate]. }
  pose proof Hin as Hin'.
  apply in_map_iff in Hin'. destruct Hin' as [u0 [HM Hu0]]. subst M.
  exists (length u0).
  assert (Hld : Forall (fun utter => (length utter <= length u0)%nat) data).
  { apply Forall_forall. intros u Hu. rewrite Forall_forall in Hall.
    specialize (Hall (Z.of_nat (length u))).
    assert (Z.of_nat (length u) <= Z.of_nat (length u0)); [|lia].
    apply Hall, in_map_iff. eauto. }
  assert (Hlen : Forall (fun utter => (length utter <= length u0)%nat)
                        (data ++ labels)).
  { apply Forall_app. split; [assumption|].
    apply Forall_forall. intros lab Hlab.
    destruct (Forall2_In_r _ _ _ _ Halign Hlab) as [u [Hu ->]].
    rewrite Forall_forall in Hld. now apply Hld. }
  split; [assumption|].
  split; [apply Exists_exists; eauto|].
  split; [now apply padDataBatch_spec|].
  apply Forall_forall. intros row Hrow. apply in_map_iff in Hrow.
  destruct Hrow as [u [<- Hu]]. rewrite Forall_forall in Hlen.
  specialize (Hlen u Hu). simpl in Hlen.
  rewrite length_app, repeat_length. lia.
Qed.

Lemma padDataBatch_pads_witness :
  exists maxlen : nat,
    Exists (fun utter : list Z => length utter = maxlen) [[3; 4]; [5]] /\
    padDataBatch [[3; 4]; [5]] [[4; 2]; [2]]
    = Some
        (map (fun utter => utter ++ repeat 0 (maxlen - length utter))
             [[3; 4]; [5]],
         [2; 1],
         map (fun utter => utter ++ repeat 0 (maxlen - length utter))
             [[4; 2]; [2]]).
Proof.
  destruct (padDataBatch_pads [[3; 4]; [5]] [[4; 2]; [2]])
    as [[maxlen [_ [Hex [Hrun _]]]] _].
  - discriminate.
  - unfold is_class. repeat constructor; simpl; lia.
  - repeat constructor; simpl; lia.
  - repeat constructor.
  - exists maxlen. split; [exact Hex | exact Hrun].
Defined.

(** C8 fails as stated: a batch with the code 97 in an input row is not
    padded; the call raises. *)
Lemma padDataBatch_pads_counterexample :
  Forall2 (fun utter lab : list Z => length lab = length utter)
          [[1; 97]] [[97; 2]] /\
  padDataBatch [[1; 97]] [[97; 2]] = None.
Proof. split; [repeat constructor | vm_compute; reflexivity]. Qed.

(** * Further properties of the notebook code *)

(** ** Cleaning *)

Lemma removeChars_filter (x : str) :
  removeChars x
  = filter (fun c => negb (existsb (Ascii.eqb c)
                             [BACKSPACE; DLE; TILDE; CARET])) x.
Proof.
  unfold removeChars, replace_with_empty. cbn [fold_left existsb].
  induction x as [|a x IH]; [reflexivity|].
  cbn [filter].
  destruct (Ascii.eqb a BACKSPACE); cbn [negb orb filter]; [exact IH|].
  destruct (Ascii.eqb a DLE); cbn [negb orb filter]; [exact IH|].
  destruct (Ascii.eqb a TILDE); cbn [negb orb filter]; [exact IH|].
  destruct (Ascii.eqb a CARET); cbn [negb orb filter]; [exact IH|].
  now rewrite IH.
Qed.

Lemma removeChars_app (a b : str) :
  removeChars (a ++ b) = removeChars a ++ removeChars b.
Proof. rewrite !removeChars_filter. apply filter_app. Qed.

(** X1. [removeChars] deletes exactly the four characters and keeps every
    other character, in its place; a text without them is returned as it
    is, so cleaning twice is cleaning once, and the cleaned text is never
    longer than the raw one. *)
Theorem removeChars_keeps_the_rest (x : str) :
  removeChars x
  = filter (fun c => negb (existsb (Ascii.eqb c)
                             [BACKSPACE; DLE; TILDE; CARET])) x /\
  removeChars (removeChars x) = removeChars x /\
  (length (removeChars x) <= length x)%nat /\
  ((forall c, In c x ->
      c <> BACKSPACE /\ c <> DLE /\ c <> TILDE /\ c <> CARET) <->
   removeChars x = x).
Proof.
  split; [apply removeChars_filter|].
  assert (Hfix : forall y : str,
            (forall c, In c y ->
               c <> BACKSPACE /\ c <> DLE /\ c <> TILDE /\ c <> CARET) ->
            removeChars y = y).
  { intros y Hy. rewrite removeChars_filter.
    induction y as [|a y IH]; [reflexivity|]. cbn [filter existsb].
    destruct (Hy a (or_introl eq_refl)) as [H1 [H2 [H3 H4]]].
    apply Ascii.eqb_neq in H1, H2, H3, H4. rewrite H1, H2, H3, H4.
    cbn [orb negb]. f_equal. apply IH. intros c Hc. apply Hy. now right. }
  split.
  { apply Hfix. intros c Hc. apply In_removeChars in Hc. tauto. }
  split.
  { rewrite removeChars_filter. apply filter_length_le. }
  split; [apply Hfix|].
  intros Heq c Hc. rewrite <- Heq in Hc. apply In_removeChars in Hc. tauto.
Qed.

(** X2. Cleaning the jokes one by one and joining them with newlines gives
    the text obtained by cleaning the joined raw jokes. *)
Theorem corpus_text_is_cleaned_join (jokes : list str) :
  corpus_text jokes = removeChars (join [NEWLINE] jokes).
Proof.
  unfold corpus_text, clean_jokes.
  induction jokes as [|x rest IH]; [reflexivity|].
  destruct rest as [|y rest]; [reflexivity|].
  change (join [NEWLINE] (map removeChars (x :: y :: rest)))
    with (removeChars x ++ [NEWLINE]
          ++ join [NEWLINE] (map removeChars (y :: rest))).
  change (join [NEWLINE] (x :: y :: rest))
    with (x ++ [NEWLINE] ++ join [NEWLINE] (y :: rest)).
  rewrite IH, !removeChars_app. reflexivity.
Qed.

(** ** The tables as a bijection *)

Lemma insert_sorted_perm (x : Z) (l : list Z) :
  Permutation (insert_sorted x l) (x :: l).
Proof.
  induction l as [|y l IH]; simpl; [reflexivity|].
  destruct (x <=? y); [reflexivity|].
  rewrite IH. apply perm_swap.
Qed.

Lemma py_sorted_perm (l : list Z) : Permutation (py_sorted l) l.
Proof.
  induction l as [|x l IH]; simpl; [reflexivity|].
  rewrite insert_sorted_perm. now constructor.
Qed.

Lemma insert_sorted_sorted (x : Z) (l : list Z) :
  StronglySorted Z.le l -> StronglySorted Z.le (insert_sorted x l).
Proof.
  induction 1 as [|y l Hs IH Hall]; simpl.
  - repeat constructor.
  - destruct (x <=? y) eqn:E.
    + apply Z.leb_le in E. constructor; [now constructor|].
      constructor; [assumption|].
      eapply Forall_impl; [|exact Hall]. simpl. intros z Hz. lia.
    + apply Z.leb_gt in E. constructor; [assumption|].
      apply Forall_forall. intros z Hz.
      apply (Permutation_in _ (insert_sorted_perm x l)) in Hz.
      destruct Hz as [<-|Hz]; [lia|].
      rewrite Forall_forall in Hall. now apply Hall.
Qed.

Lemma py_sorted_sorted (l : list Z) : StronglySorted Z.le (py_sorted l).
Proof.
  induction l as [|x l IH]; simpl; [constructor|].
  now apply insert_sorted_sorted.
Qed.

(** A sorted list without duplicates that holds exactly the integers from
    [a] on is the list [a, a + 1, ...]. *)
Lemma sorted_range (l : list Z) (a : Z) :
  StronglySorted Z.le l -> NoDup l ->
  (forall z, In z l <-> a <= z < a + Z.of_nat (length l)) ->
  l = map (fun i => a + Z.of_nat i) (seq 0 (length l)).
Proof.
  revert a. induction l as [|x l IH]; intros a Hs Hnd Hin; [reflexivity|].
  apply StronglySorted_inv in Hs. destruct Hs as [Hs Hall].
  inversion Hnd as [|? ? Hx Hnd']; subst.
  rewrite Forall_forall in Hall.
  assert (Hxa : x = a).
  { assert (Ha : In a (x :: l)) by (apply Hin; simpl length; lia).
    assert (Hx' : a <= x) by (apply (Hin x); now left).
    destruct Ha as [Ha|Ha]; [lia|]. specialize (Hall a Ha). simpl in Hall. lia. }
  subst x. simpl length. cbn [seq map]. f_equal; [lia|].
  rewrite <- seq_shift, map_map.
  rewrite (IH (a + 1)); [|assumption|assumption|].
  - rewrite length_map, length_seq. apply map_ext. intros i. lia.
  - intros z. split.
    + intros Hz. assert (Hz' : In z (a :: l)) by now right.
      apply Hin in Hz'. simpl length in Hz'.
      assert (z <> a) by (intros ->; contradiction). lia.
    + intros Hz. assert (Hz' : In z (a :: l)) by (apply Hin; simpl length; lia).
      destruct Hz' as [Hz'|Hz']; [lia | assumption].
Qed.

(** X3. The gap check of the notebook prints nothing: the sorted codes of
    [char_labels] are [0, 1, ..., size - 1]. *)
Theorem gap_check_prints_nothing (jokes : list str) (chars : list ascii) :
  list_of_set (corpus_text jokes) chars ->
  py_sorted (values (char_labels chars))
  = map Z.of_nat (seq 0 (len (char_labels chars))) /\
  gap_check chars = [].
Proof.
  intros Hset.
  assert (Hsorted : py_sorted (values (char_labels chars))
                    = map Z.of_nat (seq 0 (len (char_labels chars)))).
  { rewrite (char_labels_corpus _ _ Hset).
    pose proof (py_sorted_perm (values (char_table chars))) as Hperm.
    assert (Hlen : length (py_sorted (values (char_table chars)))
                   = len (char_table chars)).
    { rewrite (Permutation_length Hperm). unfold values, len.
      apply length_map. }
    rewrite (sorted_range (py_sorted (values (char_table chars))) 0).
    - rewrite Hlen. apply map_ext. intros i. lia.
    - apply py_sorted_sorted.
    - apply (Permutation_NoDup (Permutation_sym Hperm)).
      rewrite values_char_table. apply NoDup_codes.
    - intros z. rewrite Hlen, len_char_table.
      transitivity (In z (values (char_table chars))).
      + split; apply Permutation_in;
          [assumption | now apply Permutation_sym].
      + rewrite values_char_table, In_codes_iff. unfold is_class. lia. }
  split; [assumption|].
  unfold gap_check. cbv zeta. rewrite Hsorted.
  destruct (filter _ _) as [|p rest] eqn:E; [reflexivity|].
  assert (Hp : In p (p :: rest)) by now left.
  rewrite <- E in Hp. apply filter_In in Hp. destruct Hp as [Hin Hneq].
  destruct p as [i k]. apply In_enumerate_from in Hin.
  destruct Hin as [n [-> Hn]].
  rewrite nth_error_map, nth_error_seq in Hn.
  destruct (n <? _)%nat; [|discriminate]. simpl in Hn. injection Hn as <-.
  simpl in Hneq. rewrite Z.eqb_refl in Hneq. discriminate.
Qed.

Lemma gap_check_prints_nothing_witness :
  list_of_set (corpus_text example_jokes) example_chars /\
  gap_check example_chars = [].
Proof.
  assert (Hset : list_of_set (corpus_text example_jokes) example_chars).
  { split.
    - repeat constructor; simpl; intuition discriminate.
    - intros c. vm_compute. tauto. }
  split; [exact Hset|].
  exact (proj2 (gap_check_prints_nothing example_jokes example_chars Hset)).
Defined.

(** X4. The two tables are inverse to each other: a key has a code in
    [char_labels] exactly when that code has this key in [labels_char],
    and every code of [[0, size)] decodes to a key that encodes to it. *)
Theorem tables_are_inverse (jokes : list str) (chars : list ascii) :
  list_of_set (corpus_text jokes) chars ->
  (forall k code, encode chars k = Some code <-> decode chars code = Some k) /\
  (forall code, is_class (len (char_labels chars)) code ->
     exists k, decode chars code = Some k /\ encode chars k = Some code).
Proof.
  intros Hset. unfold encode, decode.
  rewrite (char_labels_corpus _ _ Hset), labels_char_table.
  pose proof (chars_of_corpus _ _ Hset) as [Hnd [Ht Hc]].
  assert (Hiff : forall k code,
            get str_eqb (char_table chars) k = Some code <->
            get Z.eqb (label_table chars) code = Some k).
  { intros k code. rewrite get_char_table by assumption.
    rewrite get_label_table, In_char_table, In_label_table. reflexivity. }
  split; [exact Hiff|].
  intros code Hcode. rewrite len_char_table in Hcode.
  apply In_codes_iff in Hcode. rewrite <- keys_label_table in Hcode.
  destruct (In_keys_get Z.eqb Z.eqb_eq _ _ Hcode) as [k Hk].
  exists k. split; [assumption | now apply Hiff].
Qed.

Lemma tables_are_inverse_witness :
  list_of_set (corpus_text example_jokes) example_chars /\
  exists k, decode example_chars 4 = Some k /\
            encode example_chars k = Some 4.
Proof.
  assert (Hset : list_of_set (corpus_text example_jokes) example_chars).
  { split.
    - repeat constructor; simpl; intuition discriminate.
    - intros c. vm_compute. tauto. }
  split; [exact Hset|].
  apply (proj2 (tables_are_inverse example_jokes example_chars Hset)).
  vm_compute. split; [discriminate | reflexivity].
Defined.

(** X5. The keys of [char_labels] are ['PAD'], ['~'], ['^'] and the
    characters of the cleaned corpus text, and nothing else: any other
    string, among them the backspace and the [\x10] character, has no
    code. *)
Theorem encode_unknown_key (jokes : list str) (chars : list ascii) :
  list_of_set (corpus_text jokes) chars ->
  (forall k, encode chars k <> None <->
     k = PAD \/ k = chr TILDE \/ k = chr CARET \/
     exists c, In c (corpus_text jokes) /\ k = chr c) /\
  encode chars (chr BACKSPACE) = None /\
  encode chars (chr DLE) = None /\
  encode chars [] = None.
Proof.
  intros Hset. unfold encode.
  rewrite (char_labels_corpus _ _ Hset).
  pose proof (chars_of_corpus _ _ Hset) as [Hnd [Ht Hc]].
  assert (Hkeys : forall k, get str_eqb (char_table chars) k <> None <->
            k = PAD \/ k = chr TILDE \/ k = chr CARET \/
            exists c, In c (corpus_text jokes) /\ k = chr c).
  { intros k. split.
    - intros Hk. destruct (get str_eqb (char_table chars) k) as [v|] eqn:E;
        [|congruence].
      apply get_char_table in E; try assumption. apply In_char_table in E.
      destruct E as [[n [c [Hn [-> _]]]]|[[-> _]|[[-> _]|[-> _]]]]; auto.
      right. right. right. exists c. split; [|reflexivity].
      apply (proj2 Hset). now apply nth_error_In in Hn.
    - intros Hk.
      assert (Hin : In k (keys (char_table chars))).
      { rewrite keys_char_table, in_app_iff. simpl.
        destruct Hk as [->|[->|[->|[c [Hc' ->]]]]]; auto.
        left. apply in_map. now apply (proj2 Hset). }
      destruct (In_keys_get str_eqb str_eqb_eq _ _ Hin) as [v Hv].
      congruence. }
  split; [exact Hkeys|].
  assert (Hnone : forall k,
            ~ (k = PAD \/ k = chr TILDE \/ k = chr CARET \/
               exists c, In c (corpus_text jokes) /\ k = chr c) ->
            get str_eqb (char_table chars) k = None).
  { intros k Hk. destruct (get str_eqb (char_table chars) k) eqn:E;
      [|reflexivity].
    exfalso. apply Hk, Hkeys. congruence. }
  split; [|split]; apply Hnone;
    intros [H|[H|[H|[c [Hin H]]]]]; try discriminate;
    inversion H; subst; apply corpus_text_clean in Hin; tauto.
Qed.

Lemma encode_unknown_key_witness :
  list_of_set (corpus_text example_jokes) example_chars /\
  encode example_chars (chr BACKSPACE) = None.
Proof.
  assert (Hset : list_of_set (corpus_text example_jokes) example_chars).
  { split.
    - repeat constructor; simpl; intuition discriminate.
    - intros c. vm_compute. tauto. }
  split; [exact Hset|].
  exact (proj1 (proj2 (encode_unknown_key example_jokes example_chars Hset))).
Defined.

(** ** Encoding whole texts *)

Lemma traverse_app {A B} (f : A -> option B) (l1 l2 : list A) :
  traverse f (l1 ++ l2) =
  match traverse f l1, traverse f l2 with
  | Some y1, Some y2 => Some (y1 ++ y2)
  | _, _ => None
  end.
Proof.
  induction l1 as [|a l1 IH]; simpl.
  - now destruct (traverse f l2).
  - destruct (f a); [|reflexivity]. rewrite IH.
    destruct (traverse f l1); [|reflexivity].
    now destruct (traverse f l2).
Qed.

Lemma traverse_map_Forall2 {A B C} (f : B -> option C) (g : A -> B)
  (R : A -> C -> Prop) (l : list A) :
  (forall x, In x l -> exists y, f (g x) = Some y /\ R x y) ->
  exists ys, traverse f (map g l) = Some ys /\ Forall2 R l ys.
Proof.
  induction l as [|a l IH]; intros H; simpl.
  - exists []. split; [reflexivity | constructor].
  - destruct (H a (or_introl eq_refl)) as [y [Hy HR]]. rewrite Hy.
    destruct IH as [ys [Hys HF]]; [intros x Hx; apply H; now right|].
    rewrite Hys. exists (y :: ys). split; [reflexivity | now constructor].
Qed.

Lemma encode_corpus_char (jokes : list str) (chars : list ascii) (c : ascii) :
  list_of_set (corpus_text jokes) chars ->
  In c (corpus_text jokes) ->
  exists code, get str_eqb (char_table chars) (chr c) = Some code /\
               3 <= code < Z.of_nat (len (char_table chars)).
Proof.
  intros Hset Hc. pose proof (chars_of_corpus _ _ Hset) as [Hnd [Ht Hcar]].
  apply (proj2 Hset) in Hc. destruct (In_nth_error _ _ Hc) as [n Hn].
  exists (Z.of_nat n + 3). split.
  - apply get_char_table; try assumption. apply In_char_table. left. eauto.
  - rewrite len_char_table.
    assert (n < length chars)%nat by (apply nth_error_Some; congruence). lia.
Qed.

Lemma encode_marked (jokes : list str) (chars : list ascii) (x : str) :
  list_of_set (corpus_text jokes) chars -> In x jokes ->
  exists body,
    encode_text (char_table chars) (mark (removeChars x))
    = Some (1 :: body ++ [2]) /\
    length body = length (removeChars x) /\
    Forall (fun code => 3 <= code < Z.of_nat (len (char_table chars))) body.
Proof.
  intros Hset Hx. pose proof (chars_of_corpus _ _ Hset) as [Hnd [Ht Hcar]].
  destruct (traverse_Some
              (fun char => get str_eqb (char_table chars) (chr char))
              (fun code => 3 <= code < Z.of_nat (len (char_table chars)))
              (removeChars x)) as [body [Hbody [Hall Hlen]]].
  { intros c Hc. apply (encode_corpus_char jokes); [assumption|].
    now apply (corpus_text_joke jokes x). }
  exists body. split; [|auto].
  unfold encode_text, mark. rewrite !traverse_app, Hbody.
  assert (H1 : get str_eqb (char_table chars) (chr TILDE) = Some 1)
    by (apply get_char_table; auto; apply In_char_table; auto).
  assert (H2 : get str_eqb (char_table chars) (chr CARET) = Some 2)
    by (apply get_char_table; auto; apply In_char_table; auto 6).
  simpl. rewrite H1, H2. reflexivity.
Qed.

(** X6. Encoding the marked jokes never raises on the vocabulary built from
    them; there is one row per joke, and the row of a joke is the Start
    code, one code of at least 3 for each character of the cleaned joke,
    and the End code. *)
Theorem x_data_rows (jokes : list str) (chars : list ascii) :
  list_of_set (corpus_text jokes) chars ->
  exists rows,
    x_data chars jokes = Some rows /\
    length rows = length jokes /\
    Forall2 (fun x row =>
               exists body,
                 row = 1 :: body ++ [2] /\
                 length body = length (removeChars x) /\
                 Forall (fun code =>
                           3 <= code < Z.of_nat (len (char_labels chars)))
                        body)
            jokes rows.
Proof.
  intros Hset. unfold x_data, marked_jokes, clean_jokes.
  rewrite (char_labels_corpus _ _ Hset), map_map.
  destruct (traverse_map_Forall2 (encode_text (char_table chars))
              (fun x => mark (removeChars x))
              (fun x row =>
                 exists body,
                   row = 1 :: body ++ [2] /\
                   length body = length (removeChars x) /\
                   Forall (fun code =>
                             3 <= code < Z.of_nat (len (char_table chars)))
                          body)
              jokes) as [rows [Hrows HF]].
  { intros x Hx. destruct (encode_marked jokes chars x Hset Hx)
      as [body [Henc Hrest]].
    exists (1 :: body ++ [2]). split; [assumption|]. exists body. auto. }
  exists rows. split; [assumption|].
  split; [symmetry; exact (Forall2_length HF) | exact HF].
Qed.

Lemma x_data_rows_witness :
  list_of_set (corpus_text example_jokes) example_chars /\
  exists rows, x_data example_chars example_jokes = Some rows /\
               length rows = 2%nat.
Proof.
  assert (Hset : list_of_set (corpus_text example_jokes) example_chars).
  { split.
    - repeat constructor; simpl; intuition discriminate.
    - intros c. vm_compute. tauto. }
  split; [exact Hset|].
  destruct (x_data_rows example_jokes example_chars Hset)
    as [rows [Hrows [Hlen _]]].
  exists rows. split; [exact Hrows | exact Hlen].
Defined.

(** X7. Round trip on texts. Looking up in [labels_char] each code of an
    encoded text gives the characters of the text back, one by one. In
    the other direction, a code sequence without the pad code 0 decodes to
    single characters whose encoding is the code sequence; the pad code
    decodes to ['PAD'], which does not encode to [[0]]. *)
Theorem text_round_trip (jokes : list str) (chars : list ascii) :
  list_of_set (corpus_text jokes) chars ->
  (forall text codes,
     encode_text (char_labels chars) text = Some codes ->
     traverse (decode chars) codes = Some (map chr text)) /\
  (forall codes,
     Forall (fun code => 1 <= code < Z.of_nat (len (char_labels chars)))
            codes ->
     exists text, traverse (decode chars) codes = Some (map chr text) /\
                  encode_text (char_labels chars) text = Some codes) /\
  traverse (decode chars) [0] = Some [PAD] /\
  encode_text (char_labels chars) PAD <> Some [0].
Proof.
  intros Hset. pose proof (chars_of_corpus _ _ Hset) as [Hnd [Ht Hcar]].
  unfold decode.
  rewrite (char_labels_corpus _ _ Hset), labels_char_table.
  assert (Hinv : forall k code,
            get str_eqb (char_table chars) k = Some code <->
            get Z.eqb (label_table chars) code = Some k).
  { intros k code. rewrite get_char_table by assumption.
    rewrite get_label_table, In_char_table, In_label_table. reflexivity. }
  split; [|split; [|split]].
  - induction text as [|c text IH]; intros codes Henc.
    + injection Henc as <-. reflexivity.
    + unfold encode_text in Henc. simpl in Henc.
      destruct (get str_eqb (char_table chars) (chr c)) as [v|] eqn:Ev;
        [|discriminate].
      destruct (traverse _ text) as [vs|] eqn:Evs; [|discriminate].
      injection Henc as <-. specialize (IH vs Evs).
      apply Hinv in Ev. simpl. now rewrite Ev, IH.
  - induction 1 as [|code codes Hcode _ IH].
    + exists []. split; reflexivity.
    + destruct IH as [text [Hdec Henc]].
      assert (Hk : exists c, get Z.eqb (label_table chars) code
                             = Some (chr c)).
      { rewrite len_char_table in Hcode.
        assert (Hin : In code (keys (label_table chars))).
        { rewrite keys_label_table, In_codes_iff. unfold is_class. lia. }
        destruct (In_keys_get Z.eqb Z.eqb_eq _ _ Hin) as [k Hk].
        pose proof Hk as Hk'. apply get_label_table, In_label_table in Hk'.
        destruct Hk' as [[n [c [_ [-> _]]]]|[[_ ->]|[[-> _]|[-> _]]]];
          eauto; lia. }
      destruct Hk as [c Hc]. exists (c :: text). simpl. rewrite Hc, Hdec.
      split; [reflexivity|].
      unfold encode_text in *. simpl.
      apply Hinv in Hc. rewrite Hc, Henc. reflexivity.
  - assert (H0 : get Z.eqb (label_table chars) 0 = Some PAD)
      by (apply get_label_table, In_label_table; auto).
    simpl. rewrite H0. reflexivity.
  - unfold encode_text. simpl.
    repeat match goal with
           | |- context [get ?e ?d ?k] => destruct (get e d k)
           end; discriminate.
Qed.

Lemma text_round_trip_witness :
  list_of_set (corpus_text example_jokes) example_chars /\
  traverse (decode example_chars) [0] = Some [PAD].
Proof.
  assert (Hset : list_of_set (corpus_text example_jokes) example_chars).
  { split.
    - repeat constructor; simpl; intuition discriminate.
    - intros c. vm_compute. tauto. }
  split; [exact Hset|].
  exact (proj1 (proj2 (proj2
           (text_round_trip example_jokes example_chars Hset)))).
Defined.

(** ** The whole windowing cell *)

Lemma window_loop_all (max_len n : nat) (rows : list (list Z)) (st : windows) :
  Forall (Forall (is_class n)) rows -> (3 <= n)%nat ->
  for_each rows (window_example max_len n) st
  = Some (mkWindows
      (input_sequences st ++ concat (map (row_windows max_len n) rows))
      (labels st ++ concat (map (fun r => r ++ [2]) rows))).
Proof.
  intros Hrows Hn. revert st.
  induction Hrows as [|r rows Hr _ IH]; intros st; simpl.
  - rewrite !app_nil_r. now destruct st.
  - rewrite window_example_spec by assumption. rewrite IH. simpl.
    unfold row_windows. now rewrite <- !app_assoc.
Qed.

Lemma Forall2_firstn {A B} (R : A -> B -> Prop) (l1 : list A) (l2 : list B) n :
  Forall2 R l1 l2 -> Forall2 R (firstn n l1) (firstn n l2).
Proof.
  intros H. revert n. induction H; intros [|n]; simpl; constructor; auto.
Qed.

Lemma make_windows_spec (max_len : nat) (jokes : list str)
  (chars : list ascii) :
  list_of_set (corpus_text jokes) chars ->
  let n := len (char_labels chars) in
  exists rows,
    Forall2 (fun x row =>
               exists body,
                 row = 1 :: body ++ [2] /\
                 length body = length (removeChars x) /\
                 Forall (fun code => 3 <= code < Z.of_nat n) body)
            jokes rows /\
    make_windows max_len chars jokes
    = Some (concat (map (row_windows max_len n) (firstn 100000 rows)),
            map (one_hot n)
                (concat (map (fun r => r ++ [2]) (firstn 100000 rows)))).
Proof.
  intros Hset. cbv zeta. unfold make_windows, x_data, marked_jokes, clean_jokes.
  rewrite (char_labels_corpus _ _ Hset), map_map.
  set (n := len (char_table chars)).
  assert (Hn : (3 <= n)%nat) by (unfold n; rewrite len_char_table; lia).
  destruct (traverse_map_Forall2 (encode_text (char_table chars))
              (fun x => mark (removeChars x))
              (fun x row =>
                 exists body,
                   row = 1 :: body ++ [2] /\
                   length body = length (removeChars x) /\
                   Forall (fun code => 3 <= code < Z.of_nat n) body)
              jokes) as [rows [Hrows HF]].
  { intros x Hx. destruct (encode_marked jokes chars x Hset Hx)
      as [body [Henc Hrest]].
    exists (1 :: body ++ [2]). split; [assumption|]. exists body. auto. }
  exists rows. split; [exact HF|]. rewrite Hrows.
  assert (Hcl : Forall (Forall (is_class n)) rows).
  { clear Hrows Hset. induction HF as [|x row jokes' rows' Hrow _ IH];
      [constructor|]. constructor; [|assumption].
    destruct Hrow as [body [-> [_ Hbody]]]. unfold is_class.
    constructor; [lia|]. apply Forall_app. split.
    - eapply Forall_impl; [|exact Hbody]. simpl. intros c Hc. lia.
    - repeat constructor; lia. }
  rewrite window_loop_all by (assumption || now apply Forall_firstn).
  cbn [input_sequences labels app].
  rewrite to_categorical_Some; [reflexivity|lia|].
  apply Forall_concat. apply Forall_map.
  eapply Forall_impl; [|apply Forall_firstn, Hcl].
  intros r Hr. apply Forall_app. split; [assumption|].
  repeat constructor; unfold is_class; lia.
Qed.

Lemma length_row_windows (max_len n : nat) (row : list Z) :
  length (row_windows max_len n row) = (length row + 1)%nat.
Proof. unfold row_windows. now rewrite length_map, length_seq. Qed.

(** X8. On the vocabulary built from the corpus the windowing cell never
    raises. It produces as many labels as windows, and their number is the
    sum of [L + 3] over the first 100000 jokes, [L] being the length of
    the cleaned joke; later jokes give no window. *)
Theorem make_windows_total (max_len : nat) (jokes : list str)
  (chars : list ascii) :
  list_of_set (corpus_text jokes) chars ->
  exists ws ls,
    make_windows max_len chars jokes = Some (ws, ls) /\
    length ws
    = list_sum (map (fun x => length (removeChars x) + 3)%nat
                    (firstn 100000 jokes)) /\
    length ls = length ws.
Proof.
  intros Hset.
  destruct (make_windows_spec max_len jokes chars Hset) as [rows [HF Hrun]].
  cbv zeta in Hrun. rewrite Hrun. eexists. eexists.
  split; [reflexivity|].
  apply (Forall2_firstn _ _ _ 100000) in HF. clear Hrun Hset.
  induction HF as [|x row js rs Hrow _ IH]; [split; reflexivity|].
  destruct Hrow as [body [-> [Hlen _]]].
  cbn [map concat list_sum]. rewrite length_map in *.
  rewrite !length_app, length_row_windows. destruct IH as [IH1 IH2].
  simpl length. rewrite length_app. simpl length.
  unfold list_sum in *. cbn [fold_right]. split; lia.
Qed.

Lemma make_windows_total_witness :
  list_of_set (corpus_text example_jokes) example_chars /\
  exists ws ls,
    make_windows 20 example_chars example_jokes = Some (ws, ls) /\
    length ws = 10%nat.
Proof.
  assert (Hset : list_of_set (corpus_text example_jokes) example_chars).
  { split.
    - repeat constructor; simpl; intuition discriminate.
    - intros c. vm_compute. tauto. }
  split; [exact Hset|].
  destruct (make_windows_total 20 example_jokes example_chars Hset)
    as [ws [ls [Hrun [Hlen _]]]].
  exists ws, ls. split; [exact Hrun | exact Hlen].
Defined.

Lemma nth_error_one_hot (n : nat) (c : Z) (j : nat) :
  nth_error (one_hot n c) j = Some 1 <-> (j < n)%nat /\ Z.of_nat j = c.
Proof.
  unfold one_hot. rewrite nth_error_map, nth_error_seq.
  destruct (j <? n)%nat eqn:E.
  - apply Nat.ltb_lt in E. simpl.
    destruct (Z.of_nat j =? c) eqn:Ec.
    + apply Z.eqb_eq in Ec. tauto.
    + apply Z.eqb_neq in Ec. split; [discriminate | tauto].
  - apply Nat.ltb_ge in E. simpl. split; [discriminate | lia].
Qed.

Lemma Forall2_Forall_r {A B} (R : A -> B -> Prop) (P : B -> Prop)
  (l1 : list A) (l2 : list B) :
  (forall x y, R x y -> P y) -> Forall2 R l1 l2 -> Forall P l2.
Proof. intros H. induction 1; constructor; eauto. Qed.

Lemma length_slice_padded (max_len : nat) (row : list Z) (i : nat) :
  (i < length row + 1)%nat ->
  length (slice (padded_seq max_len row) i (i + max_len)) = max_len.
Proof.
  intros Hi. unfold slice, padded_seq.
  rewrite length_firstn, length_skipn, !length_app, repeat_length.
  simpl. lia.
Qed.

Lemma padded_marked_codes (max_len n : nat) (body : list Z) :
  (3 <= n)%nat ->
  Forall (fun code => 3 <= code < Z.of_nat n) body ->
  Forall (fun code => 1 <= code < Z.of_nat n)
         (padded_seq max_len (1 :: body ++ [2])).
Proof.
  intros Hn Hbody. unfold padded_seq. apply Forall_app. split.
  - apply Forall_forall. intros c Hc. apply repeat_spec in Hc. lia.
  - simpl. constructor; [lia|]. rewrite <- app_assoc. apply Forall_app. split.
    + eapply Forall_impl; [|exact Hbody]. simpl. intros c Hc. lia.
    + repeat constructor; lia.
Qed.

(** X9. Every window the cell produces has [max_len] rows; every row, and
    every label, is the one-hot row of a code between 1 and [size - 1],
    which has its single 1 at the position of the code. The pad code 0
    never occurs in the training data. *)
Theorem make_windows_shape (max_len : nat) (jokes : list str)
  (chars : list ascii) :
  list_of_set (corpus_text jokes) chars ->
  let n := len (char_labels chars) in
  exists ws ls,
    make_windows max_len chars jokes = Some (ws, ls) /\
    Forall (fun w =>
              length w = max_len /\
              Forall (fun row => exists code,
                        row = one_hot n code /\ 1 <= code < Z.of_nat n) w)
           ws /\
    Forall (fun row => exists code,
              row = one_hot n code /\ 1 <= code < Z.of_nat n) ls /\
    forall code j,
      nth_error (one_hot n code) j = Some 1 <->
      (j < n)%nat /\ Z.of_nat j = code.
Proof.
  intros Hset. cbv zeta.
  destruct (make_windows_spec max_len jokes chars Hset) as [rows [HF Hrun]].
  cbv zeta in Hrun. rewrite Hrun. eexists. eexists.
  split; [reflexivity|].
  set (n := len (char_labels chars)) in *.
  assert (Hn : (3 <= n)%nat).
  { unfold n. rewrite (char_labels_corpus _ _ Hset), len_char_table. lia. }
  assert (Hrows : Forall (fun row =>
                    Forall (fun code => 1 <= code < Z.of_nat n)
                           (padded_seq max_len row))
                    (firstn 100000 rows)).
  { apply Forall_firstn. eapply Forall2_Forall_r; [|exact HF].
    intros x row [body [-> [_ Hbody]]]. now apply padded_marked_codes. }
  clear Hrun HF. split; [|split; [|apply nth_error_one_hot]].
  - apply Forall_concat, Forall_map.
    eapply Forall_impl; [|exact Hrows]. intros row Hrow.
    unfold row_windows. apply Forall_map, Forall_forall.
    intros i Hi. apply in_seq in Hi. split.
    + rewrite length_map. apply length_slice_padded. lia.
    + apply Forall_map. eapply Forall_impl; [|apply Forall_slice, Hrow].
      intros c Hc. simpl in Hc. exists c. auto.
  - apply Forall_map, Forall_concat, Forall_map.
    eapply Forall_impl; [|exact Hrows]. intros row Hrow.
    unfold padded_seq in Hrow. apply Forall_app in Hrow.
    destruct Hrow as [_ Hrow].
    eapply Forall_impl; [|exact Hrow]. intros c Hc. simpl in Hc.
    exists c. auto.
Qed.

Lemma make_windows_shape_witness :
  list_of_set (corpus_text example_jokes) example_chars /\
  exists ws ls,
    make_windows 20 example_chars example_jokes = Some (ws, ls) /\
    Forall (fun w => length w = 20%nat) ws.
Proof.
  assert (Hset : list_of_set (corpus_text example_jokes) example_chars).
  { split.
    - repeat constructor; simpl; intuition discriminate.
    - intros c. vm_compute. tauto. }
  split; [exact Hset|].
  destruct (make_windows_shape 20 example_jokes example_chars Hset)
    as [ws [ls [Hrun [Hws _]]]].
  exists ws, ls. split; [exact Hrun|].
  eapply Forall_impl; [|exact Hws]. intros w Hw. exact (proj1 Hw).
Defined.

(** ** How the windows of one joke follow each other *)

Lemma firstn_S_nth_error {A} (l : list A) (n : nat) (v : A) :
  nth_error l n = Some v -> firstn (S n) l = firstn n l ++ [v].
Proof.
  revert n. induction l as [|a l IH]; intros [|n] H; try discriminate.
  - simpl in H. injection H as ->. reflexivity.
  - simpl in H. rewrite !firstn_cons, (IH n H). reflexivity.
Qed.

Lemma skipn_nth_error_cons {A} (l : list A) (i : nat) (x : A) :
  nth_error l i = Some x -> skipn i l = x :: skipn (S i) l.
Proof.
  revert i. induction l as [|a l IH]; intros [|i] H; try discriminate.
  - simpl in H. injection H as ->. reflexivity.
  - simpl in H. apply (IH i H).
Qed.

(** The slice one position further is the slice without its first element,
    followed by the element behind it. *)
Lemma slice_shift (l : list Z) (i W : nat) (v : Z) :
  (0 < W)%nat -> nth_error l (i + W) = Some v ->
  slice l (S i) (S i + W) = tl (slice l i (i + W)) ++ [v].
Proof.
  intros HW Hv. unfold slice.
  replace (S i + W - S i)%nat with W by lia.
  replace (i + W - i)%nat with W by lia.
  destruct W as [|W']; [lia|].
  destruct (nth_error l i) as [x|] eqn:Ex.
  - rewrite (skipn_nth_error_cons l i x Ex). rewrite firstn_cons. cbn [tl].
    apply firstn_S_nth_error. rewrite nth_error_skipn.
    rewrite <- Hv. f_equal. lia.
  - apply nth_error_None in Ex.
    assert (Hlt : (i + S W' < length l)%nat)
      by (apply nth_error_Some; congruence).
    lia.
Qed.

(** X10. The windows of one joke form a chain. The first window is
    [max_len] Start codes and its label is the Start code; every further
    window is the window before it without its first row, followed by the
    one-hot row of the label before it. *)
Theorem windows_slide (jokes : list str) (chars : list ascii) :
  list_of_set (corpus_text jokes) chars ->
  forall x, In x jokes ->
  forall (max_len : nat) (st : windows), (0 < max_len)%nat ->
    let n := len (char_labels chars) in
    exists codes ws,
      encode_text (char_labels chars) (mark (removeChars x)) = Some codes /\
      window_example max_len n codes st
      = Some (mkWindows (input_sequences st ++ ws)
                        (labels st ++ codes ++ [2])) /\
      hd_error ws = Some (map (one_hot n) (repeat 1 max_len)) /\
      hd_error (codes ++ [2]) = Some 1 /\
      forall i w label,
        nth_error ws i = Some w ->
        nth_error (codes ++ [2]) i = Some label ->
        (S i < length ws)%nat ->
        nth_error ws (S i) = Some (tl w ++ [one_hot n label]).
Proof.
  intros Hset x Hx max_len st HW. cbv zeta.
  rewrite (char_labels_corpus _ _ Hset).
  set (n := len (char_table chars)).
  assert (Hn : (3 <= n)%nat) by (unfold n; rewrite len_char_table; lia).
  destruct (encode_marked jokes chars x Hset Hx) as [body [Henc [_ Hbody]]].
  exists (1 :: body ++ [2]), (row_windows max_len n (1 :: body ++ [2])).
  split; [assumption|].
  assert (Hcodes : Forall (is_class n) (1 :: body ++ [2])).
  { unfold is_class. constructor; [lia|]. apply Forall_app. split.
    - eapply Forall_impl; [|exact Hbody]. simpl. intros c Hc.
      fold n in Hc. lia.
    - repeat constructor; lia. }
  split; [now apply window_example_spec|].
  set (codes := 1 :: body ++ [2]) in *.
  assert (Hnth : forall i, (i < length codes + 1)%nat ->
            nth_error (row_windows max_len n codes) i
            = Some (map (one_hot n)
                      (slice (padded_seq max_len codes) i (i + max_len)))).
  { intros i Hi. unfold row_windows. rewrite nth_error_map, nth_error_seq.
    replace (i <? length codes + 1)%nat with true
      by (symmetry; apply Nat.ltb_lt; lia).
    reflexivity. }
  split.
  { unfold row_windows. rewrite Nat.add_1_r. cbn [seq map hd_error].
    do 2 f_equal. unfold slice, padded_seq.
    replace (0 + max_len - 0)%nat with max_len by lia. cbn [skipn].
    rewrite firstn_app, repeat_length, Nat.sub_diag. cbn [firstn].
    rewrite app_nil_r. apply firstn_all2. rewrite repeat_length. lia. }
  split; [reflexivity|].
  intros i w label Hw Hlabel Hlt.
  rewrite length_row_windows in Hlt.
  rewrite Hnth in Hw by lia. injection Hw as <-.
  rewrite Hnth by lia. f_equal.
  rewrite (slice_shift _ i max_len label HW).
  - rewrite map_app. simpl. f_equal.
    destruct (slice (padded_seq max_len codes) i (i + max_len));
      reflexivity.
  - unfold padded_seq. rewrite nth_error_app2; rewrite repeat_length; [|lia].
    rewrite <- Hlabel. f_equal. lia.
Qed.

Lemma windows_slide_witness :
  list_of_set (corpus_text example_jokes) example_chars /\
  exists codes ws,
    window_example 20 (len (char_labels example_chars)) codes
                   (mkWindows [] [])
    = Some (mkWindows ws (codes ++ [2])) /\
    hd_error ws
    = Some (map (one_hot (len (char_labels example_chars))) (repeat 1 20)).
Proof.
  assert (Hset : list_of_set (corpus_text example_jokes) example_chars).
  { split.
    - repeat constructor; simpl; intuition discriminate.
    - intros c. vm_compute. tauto. }
  split; [exact Hset|].
  destruct (windows_slide example_jokes example_chars Hset (lit "hi~")
              (or_introl eq_refl) 20%nat (mkWindows [] []))
    as [codes [ws [_ [Hrun [Hhd _]]]]].
  - lia.
  - exists codes, ws. split; [exact Hrun | exact Hhd].
Defined.

(** ** More on the generation loop *)

Lemma traverse_None {A B} (f : A -> option B) (l : list A) (x : A) :
  In x l -> f x = None -> traverse f l = None.
Proof.
  induction l as [|a l IH]; simpl; [tauto|].
  intros [->|Hx] Hf.
  - now rewrite Hf.
  - destruct (f a); [|reflexivity]. now rewrite IH.
Qed.

Lemma traverse_length {A B} (f : A -> option B) (l : list A) (ys : list B) :
  traverse f l = Some ys -> length ys = length l.
Proof.
  revert ys. induction l as [|a l IH]; intros ys; simpl.
  - intros [= <-]. reflexivity.
  - destruct (f a); [|discriminate].
    destruct (traverse f l) as [zs|]; [|discriminate].
    intros [= <-]. simpl. f_equal. now apply IH.
Qed.

(** X11. A seed with a character that is not a key of the table makes every
    call with a positive budget raise, whatever the model; with a budget
    of zero the seed is returned and never looked at. *)
Theorem generate_unknown_seed (model : list (list Z) -> Z)
  (mapping : @dict str Z) (seq_length : nat) (seed_text : str) (c : ascii) :
  In c seed_text -> ~ In (chr c) (keys mapping) ->
  (forall n_chars,
     generate_seq model mapping seq_length seed_text (S n_chars) = None) /\
  generate_seq model mapping seq_length seed_text 0 = Some seed_text.
Proof.
  intros Hc Hk. split; [|reflexivity]. intros n.
  unfold generate_seq. cbn [generate_loop]. unfold generate_step, encode_text.
  rewrite (traverse_None _ seed_text c Hc); [reflexivity|].
  now apply (get_not_in str_eqb str_eqb_eq).
Qed.

Lemma generate_unknown_seed_witness :
  generate_seq (fun _ => 3) (char_labels example_chars) 20 (lit "hey") 5
  = None.
Proof.
  apply (generate_unknown_seed (fun _ => 3) (char_labels example_chars)
           20%nat (lit "hey") "e"%char).
  - simpl. tauto.
  - vm_compute. intros H.
    repeat (destruct H as [H|H]; [discriminate|]). destruct H.
Defined.

(** X12. With an empty table every call with a positive budget raises, for
    every seed, the empty one too. *)
Theorem generate_empty_mapping (model : list (list Z) -> Z)
  (seq_length : nat) (seed_text : str) (n_chars : nat) :
  generate_seq model [] seq_length seed_text (S n_chars) = None.
Proof.
  unfold generate_seq. cbn [generate_loop]. unfold generate_step, encode_text.
  destruct seed_text as [|c rest]; [|reflexivity].
  cbn [traverse]. destruct (pad_sequences _ _); [|reflexivity].
  destruct (to_categorical _ _); reflexivity.
Qed.

(** X13. A call with budget [n + m] is a call with budget [n] followed by a
    call with budget [m] on its result, and a call that returns has only
    appended to the seed. *)
Theorem generate_seq_composes (model : list (list Z) -> Z)
  (mapping : @dict str Z) (seq_length : nat) (seed_text : str) (n m : nat) :
  generate_seq model mapping seq_length seed_text (n + m)
  = match generate_seq model mapping seq_length seed_text n with
    | None => None
    | Some t => generate_seq model mapping seq_length t m
    end /\
  forall t, generate_seq model mapping seq_length seed_text n = Some t ->
            exists out, t = seed_text ++ out.
Proof.
  unfold generate_seq. split.
  - revert seed_text. induction n as [|n IH]; intros seed; simpl;
      [reflexivity|].
    destruct (generate_step model mapping seq_length seed); [apply IH|].
    reflexivity.
  - revert seed_text. induction n as [|n IH]; intros seed t; simpl.
    + intros [= <-]. exists []. now rewrite app_nil_r.
    + destruct (generate_step model mapping seq_length seed) as [s|] eqn:E;
        [|discriminate].
      intros Ht. destruct (IH s t Ht) as [out ->].
      unfold generate_step in E.
      destruct (encode_text mapping seed); [|discriminate].
      destruct (pad_sequences _ _); [|discriminate].
      destruct (to_categorical _ _); [|discriminate].
      destruct (char _) as [k|]; [|discriminate].
      injection E as <-. exists (k ++ out). now rewrite app_assoc.
Qed.

Lemma pad_sequences_suffix (a t : list Z) (W : nat) :
  (0 < W)%nat -> (W <= length t)%nat ->
  pad_sequences (a ++ t) W = pad_sequences t W.
Proof.
  intros Hpos HW. rewrite !pad_sequences_positive by assumption.
  rewrite length_app, skipn_app.
  rewrite (skipn_all2 a) by lia.
  replace (length a + length t - W - length a)%nat
    with (length t - W)%nat by lia.
  replace (W - (length a + length t))%nat with (W - length t)%nat by lia.
  reflexivity.
Qed.

(** X14. For a window width of at least 1, only the last [seq_length]
    characters count. When the text in front of them can be encoded, it
    changes nothing in what is generated: the call on [front ++ tail]
    returns [front] followed by the result of the call on [tail]. *)
Theorem generate_seq_sees_window_only (model : list (list Z) -> Z)
  (mapping : @dict str Z) (seq_length : nat) (front tail : str)
  (n_chars : nat) :
  (0 < seq_length)%nat ->
  encodable mapping front ->
  (seq_length <= length tail)%nat ->
  generate_seq model mapping seq_length (front ++ tail) n_chars
  = option_map (app front)
               (generate_seq model mapping seq_length tail n_chars).
Proof.
  intros HW Hfront. unfold generate_seq.
  assert (Hstep : forall t, (seq_length <= length t)%nat ->
            generate_step model mapping seq_length (front ++ t)
            = option_map (app front)
                         (generate_step model mapping seq_length t)).
  { intros t Ht. unfold generate_step, encode_text.
    rewrite traverse_app.
    destruct (traverse_Some
                (fun char => get str_eqb mapping (chr char))
                (fun _ => True) front) as [ea [-> _]].
    { intros c Hc. unfold encodable in Hfront.
      rewrite Forall_forall in Hfront.
      destruct (In_keys_get str_eqb str_eqb_eq mapping (chr c)
                  (Hfront c Hc)) as [v Hv]. eauto. }
    destruct (traverse _ t) as [et|] eqn:Et; [|reflexivity].
    rewrite pad_sequences_suffix
      by (assumption || (rewrite (traverse_length _ _ _ Et); exact Ht)).
    destruct (pad_sequences _ _); [|reflexivity].
    destruct (to_categorical _ _); [|reflexivity].
    destruct (char _); [|reflexivity].
    simpl. now rewrite app_assoc. }
  revert tail. induction n_chars as [|n IH]; intros tail Ht; simpl;
    [reflexivity|].
  rewrite Hstep by assumption.
  destruct (generate_step model mapping seq_length tail) as [s|] eqn:E;
    [|reflexivity].
  simpl. apply IH.
  unfold generate_step in E.
  destruct (encode_text mapping tail); [|discriminate].
  destruct (pad_sequences _ _); [|discriminate].
  destruct (to_categorical _ _); [|discriminate].
  destruct (char _) as [k|]; [|discriminate].
  injection E as <-. rewrite length_app. lia.
Qed.

Lemma generate_seq_sees_window_only_witness :
  generate_seq (fun _ => 3) (char_labels example_chars) 2
               (lit "hi" ++ lit "ha") 4
  = option_map (app (lit "hi"))
      (generate_seq (fun _ => 3) (char_labels example_chars) 2 (lit "ha") 4).
Proof.
  apply (generate_seq_sees_window_only (fun _ => 3)
           (char_labels example_chars) 2%nat (lit "hi") (lit "ha") 4%nat).
  - lia.
  - repeat constructor; vm_compute; tauto.
  - simpl. lia.
Defined.



(** ** More on batch padding *)

Lemma traverse_Forall2 {A B} (f : A -> option B) (l : list A) (ys : list B) :
  traverse f l = Some ys -> Forall2 (fun a y => f a = Some y) l ys.
Proof.
  revert ys. induction l as [|a l IH]; intros ys; simpl.
  - intros [= <-]. constructor.
  - destruct (f a) as [y|] eqn:E; [|discriminate].
    destruct (traverse f l) as [zs|]; [|discriminate].
    intros [= <-]. constructor; [assumption | now apply IH].
Qed.

Lemma Forall2_In_l {A B} (R : A -> B -> Prop) (l1 : list A) (l2 : list B) x :
  Forall2 R l1 l2 -> In x l1 -> exists y, In y l2 /\ R x y.
Proof.
  induction 1 as [|a b l1 l2 Hab _ IH]; simpl; [tauto|].
  intros [<-|Hx]; [eauto|].
  destruct (IH Hx) as [y [Hy HR]]. eauto.
Qed.

(** X16. The three ways [padDataBatch] raises: on an empty batch, on a
    label row longer than every input row, and on an input code of 97 or
    more. *)
Theorem padDataBatch_raises (data labels : list (list Z)) :
  padDataBatch [] labels = None /\
  (forall lab, In lab labels ->
     Forall (fun utter => (length utter < length lab)%nat) data ->
     padDataBatch data labels = None) /\
  (forall utter code, In utter data -> In code utter ->
     97 <= code < 2 ^ 31 ->
     padDataBatch data labels = None).
Proof.
  split; [reflexivity|]. split.
  - intros lab Hlab Hshort. unfold padDataBatch.
    destruct (py_max _) as [M|] eqn:EM; [|reflexivity].
    destruct (traverse _ data); [|reflexivity].
    rewrite (traverse_None _ labels lab Hlab); [reflexivity|].
    assert (HM : In M (map (fun utter => Z.of_nat (length utter)) data)).
    { destruct data as [|u data]; [discriminate|].
      destruct (py_max_spec (map (fun utter => Z.of_nat (length utter))
                                 (u :: data))) as [M' [HM' [Hin _]]];
        [discriminate|].
      congruence. }
    apply in_map_iff in HM. destruct HM as [u [<- Hu]].
    rewrite Forall_forall in Hshort. specialize (Hshort u Hu).
    unfold np_pad_after.
    replace (_ <? 0) with true by (symmetry; apply Z.ltb_lt; lia).
    reflexivity.
  - intros utter code Hu Hc Hcode. unfold padDataBatch.
    destruct (py_max _) as [M|]; [|reflexivity].
    destruct (traverse _ data) as [x|] eqn:Ex; [|reflexivity].
    destruct (traverse _ labels); [|reflexivity].
    apply traverse_Forall2 in Ex.
    destruct (Forall2_In_l _ _ _ _ Ex Hu) as [row [Hrow Hpad]].
    rewrite (traverse_None _ x row Hrow); [reflexivity|].
    simpl in Hpad. destruct (np_pad_after utter _) as [r|] eqn:Er;
      [|discriminate].
    injection Hpad as <-. unfold np_pad_after in Er.
    destruct (_ <? 0); [discriminate|]. injection Er as <-.
    unfold to_categorical. cbv zeta.
    change (97 =? 0)%nat with false. cbv iota.
    replace (forallb _ _) with false; [reflexivity|].
    symmetry. apply not_true_is_false. intros Hall.
    rewrite forallb_forall in Hall.
    specialize (Hall (as_int32 code)).
    rewrite as_int32_small in Hall by lia.
    assert (Hin : In code (map as_int32 (utter ++ repeat 0 (Z.to_nat
                    (M - Z.of_nat (length utter)))))).
    { rewrite <- (as_int32_small code) at 1 by lia.
      apply in_map, in_or_app. now left. }
    specialize (Hall Hin). apply andb_true_iff in Hall.
    destruct Hall as [_ Hlt]. apply Z.ltb_lt in Hlt. simpl in Hlt. lia.
Qed.

Lemma padDataBatch_result (data labels : list (list Z)) :
  data <> [] ->
  Forall (Forall (is_class 97)) data ->
  Forall (Forall (fun c => - 2 ^ 31 <= c < 2 ^ 31)) labels ->
  Forall2 (fun utter lab => length lab = length utter) data labels ->
  exists maxlen : nat,
    Forall (fun utter => (length utter <= maxlen)%nat) (data ++ labels) /\
    padDataBatch data labels
    = Some
        (map (fun utter => utter ++ repeat 0 (maxlen - length utter)) data,
         map (fun utter => Z.of_nat (length utter)) data,
         map (fun utter => utter ++ repeat 0 (maxlen - length utter)) labels).
Proof.
  intros Hne Hdata Hlabels Halign.
  destruct (py_max_spec (map (fun utter => Z.of_nat (length utter)) data))
    as [M [Hmax [Hin Hall]]].
  { destruct data; [congruence | discriminate]. }
  pose proof Hin as Hin'.
  apply in_map_iff in Hin'. destruct Hin' as [u0 [HM Hu0]]. subst M.
  exists (length u0).
  assert (Hld : Forall (fun utter => (length utter <= length u0)%nat) data).
  { apply Forall_forall. intros u Hu. rewrite Forall_forall in Hall.
    specialize (Hall (Z.of_nat (length u))).
    assert (Z.of_nat (length u) <= Z.of_nat (length u0)); [|lia].
    apply Hall, in_map_iff. eauto. }
  assert (Hlen : Forall (fun utter => (length utter <= length u0)%nat)
                        (data ++ labels)).
  { apply Forall_app. split; [assumption|].
    apply Forall_forall. intros lab Hlab.
    destruct (Forall2_In_r _ _ _ _ Halign Hlab) as [u [Hu ->]].
    rewrite Forall_forall in Hld. now apply Hld. }
  split; [assumption | now apply padDataBatch_spec].
Qed.




(** ** Inputs and targets of the TensorFlow variant *)

Lemma traverse_map_compose {A B C D} (f : B -> option C) (g : A -> B)
  (f' : A -> option D) (h : D -> C) (l : list A) :
  (forall x, f (g x) = option_map h (f' x)) ->
  traverse f (map g l) = option_map (map h) (traverse f' l).
Proof.
  intros H. induction l as [|a l IH]; simpl; [reflexivity|].
  rewrite H, IH. destruct (f' a); [|reflexivity].
  now destruct (traverse f' l).
Qed.

Lemma tf_data_spec (jokes : list str) (chars : list ascii) :
  list_of_set (corpus_text jokes) chars ->
  exists bodies,
    Forall2 (fun joke body =>
               encode_text (char_labels chars) (removeChars joke) = Some body)
            jokes bodies /\
    x_data_tf chars jokes = Some (map (cons 1) bodies) /\
    y_data_tf chars jokes = Some (map (fun body => body ++ [2]) bodies) /\
    Forall2 (fun xrow yrow =>
               length xrow = length yrow /\ xrow ++ [2] = 1 :: yrow)
            (map (cons 1) bodies) (map (fun body => body ++ [2]) bodies).
Proof.
  intros Hset. pose proof (chars_of_corpus _ _ Hset) as [Hnd [Ht Hcar]].
  unfold x_data_tf, y_data_tf, marked_jokes, clean_jokes.
  rewrite !map_map. rewrite (char_labels_corpus _ _ Hset).
  assert (H1 : get str_eqb (char_table chars) (chr TILDE) = Some 1)
    by (apply get_char_table; auto; apply In_char_table; auto).
  assert (H2 : get str_eqb (char_table chars) (chr CARET) = Some 2)
    by (apply get_char_table; auto; apply In_char_table; auto 6).
  destruct (traverse_map_Forall2 (encode_text (char_table chars))
              removeChars
              (fun joke body =>
                 encode_text (char_table chars) (removeChars joke)
                 = Some body) jokes) as [bodies [Hbodies HF]].
  { intros x Hx.
    destruct (encode_marked jokes chars x Hset Hx) as [body [Henc _]].
    unfold encode_text, mark in Henc. rewrite !traverse_app in Henc.
    unfold encode_text.
    destruct (traverse _ (removeChars x)) as [b|]; eauto.
    simpl in Henc. rewrite H1 in Henc. discriminate. }
  exists bodies. split; [exact HF|].
  assert (Hb : traverse (fun x => encode_text (char_table chars)
                                    (removeChars x)) jokes = Some bodies).
  { clear -HF. induction HF as [|x b js bs Hx _ IH]; [reflexivity|].
    simpl. now rewrite Hx, IH. }
  split; [|split].
  - rewrite (traverse_map_compose
               (fun z => encode_text (char_table chars) (removelast z))
               (fun x => mark (removeChars x))
               (fun x => encode_text (char_table chars) (removeChars x))
               (cons 1)).
    + now rewrite Hb.
    + intros x. unfold mark.
      change ([TILDE] ++ removeChars x ++ [CARET])
        with ((TILDE :: removeChars x) ++ [CARET]).
      rewrite removelast_last. unfold encode_text. simpl. rewrite H1.
      now destruct (traverse _ (removeChars x)).
  - rewrite (traverse_map_compose
               (fun z => encode_text (char_table chars) (tl z))
               (fun x => mark (removeChars x))
               (fun x => encode_text (char_table chars) (removeChars x))
               (fun body => body ++ [2])).
    + now rewrite Hb.
    + intros x. unfold mark. simpl. unfold encode_text.
      rewrite traverse_app. simpl. rewrite H2.
      now destruct (traverse _ (removeChars x)).
  - clear. induction bodies as [|b bodies IH]; simpl; constructor;
      [|assumption].
    split; [rewrite length_app; simpl; lia | reflexivity].
Qed.

(** X18. Inputs and targets are the same code sequence shifted by one
    position: the input row of a joke is the Start code followed by the
    codes of the cleaned joke, its target row is these codes followed by
    the End code. On the vocabulary built from the corpus neither cell
    raises. *)
Theorem inputs_and_targets_shift (jokes : list str) (chars : list ascii) :
  list_of_set (corpus_text jokes) chars ->
  exists bodies,
    Forall2 (fun joke body =>
               encode_text (char_labels chars) (removeChars joke) = Some body)
            jokes bodies /\
    x_data_tf chars jokes = Some (map (cons 1) bodies) /\
    y_data_tf chars jokes = Some (map (fun body => body ++ [2]) bodies) /\
    Forall2 (fun xrow yrow =>
               length xrow = length yrow /\ xrow ++ [2] = 1 :: yrow)
            (map (cons 1) bodies) (map (fun body => body ++ [2]) bodies).
Proof. exact (tf_data_spec jokes chars). Qed.

Lemma inputs_and_targets_shift_witness :
  list_of_set (corpus_text example_jokes) example_chars /\
  exists bodies,
    x_data_tf example_chars example_jokes = Some (map (cons 1) bodies) /\
    y_data_tf example_chars example_jokes
    = Some (map (fun body => body ++ [2]) bodies).
Proof.
  assert (Hset : list_of_set (corpus_text example_jokes) example_chars).
  { split.
    - repeat constructor; simpl; intuition discriminate.
    - intros c. vm_compute. tauto. }
  split; [exact Hset|].
  destruct (inputs_and_targets_shift example_jokes example_chars Hset)
    as [bodies [_ [Hx [Hy _]]]].
  exists bodies. split; [exact Hx | exact Hy].
Defined.

(** ** The batches of an epoch *)

Lemma firstn_add {A} (l : list A) (a b : nat) :
  firstn (a + b) l = firstn a l ++ firstn b (skipn a l).
Proof.
  revert l. induction a as [|a IH]; intros l; [reflexivity|].
  destruct l as [|x l]; simpl.
  - now rewrite firstn_nil.
  - now rewrite IH.
Qed.

Lemma concat_slices {A} (l : list A) (bs k : nat) :
  concat (map (fun j => slice l (j * bs) (j * bs + bs)) (seq 0 k))
  = firstn (k * bs) l.
Proof.
  induction k as [|k IH]; [reflexivity|].
  rewrite seq_S, map_app, concat_app, IH. simpl. rewrite app_nil_r.
  unfold slice. replace (k * bs + bs - k * bs)%nat with bs by lia.
  replace (bs + k * bs)%nat with (k * bs + bs)%nat by lia.
  now rewrite firstn_add.
Qed.

Lemma batch_count_bounds (n bs : nat) :
  (0 < bs)%nat ->
  let k := ((n + bs - 1) / bs)%nat in
  (n <= k * bs)%nat /\ forall j, (j < k)%nat -> (j * bs < n)%nat.
Proof.
  intros Hbs. cbv zeta.
  pose proof (Nat.div_mod_eq (n + bs - 1) bs) as Hdm.
  pose proof (Nat.mod_upper_bound (n + bs - 1) bs) as Hmod.
  set (q := ((n + bs - 1) / bs)%nat) in *.
  set (r := ((n + bs - 1) mod bs)%nat) in *.
  split; [nia|]. intros j Hj.
  assert (j * bs <= (q - 1) * bs)%nat by (apply Nat.mul_le_mono_r; lia).
  nia.
Qed.

(** X19. The batches of an epoch cut the shuffled index list into
    consecutive pieces: put one after the other they give the list back,
    so every index is in one batch; no batch is empty and none has more
    than [bs] indices. *)
Theorem batches_partition_indices (bs : nat) (all_idxs : list nat) :
  (0 < bs)%nat ->
  let starts := range_step (length all_idxs) bs in
  concat (map (fun i => slice all_idxs i (i + bs)) starts) = all_idxs /\
  Forall (fun i => slice all_idxs i (i + bs) <> [] /\
                   (length (slice all_idxs i (i + bs)) <= bs)%nat) starts.
Proof.
  intros Hbs. cbv zeta. unfold range_step.
  destruct (batch_count_bounds (length all_idxs) bs Hbs) as [Hall Hlt].
  split.
  - rewrite map_map, concat_slices. now apply firstn_all2.
  - apply Forall_map, Forall_forall. intros j Hj. apply in_seq in Hj.
    assert (Hjn : (j * bs < length all_idxs)%nat) by (apply Hlt; lia).
    unfold slice. replace (j * bs + bs - j * bs)%nat with bs by lia.
    split.
    + intros Hnil. apply (f_equal (@length nat)) in Hnil.
      rewrite length_firstn, length_skipn in Hnil. simpl in Hnil. lia.
    + rewrite length_firstn. lia.
Qed.

Lemma batches_partition_indices_witness :
  concat (map (fun i => slice [2; 0; 1]%nat i (i + 2))
              (range_step (length [2; 0; 1]%nat) 2))
  = [2; 0; 1]%nat.
Proof.
  apply (batches_partition_indices 2%nat [2; 0; 1]%nat). lia.
Defined.

(** ** A whole epoch on the notebook's data *)

Lemma encode_text_classes (chars : list ascii) (text : str) (codes : list Z) :
  encode_text (char_table chars) text = Some codes ->
  Forall (is_class (len (char_table chars))) codes.
Proof.
  intros H. apply traverse_Forall2 in H.
  eapply Forall2_Forall_r; [|exact H]. simpl. intros c v Hv.
  eapply is_class_char_table, get_Some_In; [apply str_eqb_eq | exact Hv].
Qed.

Lemma traverse_nth_error {A} (l : list A) (d : A) (idxs : list nat) :
  Forall (fun i => (i < length l)%nat) idxs ->
  traverse (nth_error l) idxs = Some (map (fun i => nth i l d) idxs).
Proof.
  intros H. apply traverse_map. intros i Hi.
  rewrite Forall_forall in H. apply nth_error_nth'. now apply H.
Qed.

Lemma Forall2_map_same {A B C} (R : B -> C -> Prop) (g1 : A -> B)
  (g2 : A -> C) (l : list A) :
  (forall x, In x l -> R (g1 x) (g2 x)) -> Forall2 R (map g1 l) (map g2 l).
Proof.
  induction l as [|a l IH]; intros H; simpl; constructor.
  - apply H. now left.
  - apply IH. intros x Hx. apply H. now right.
Qed.

Lemma is_class_le (n m : nat) (c : Z) :
  (n <= m)%nat -> is_class n c -> is_class m c.
Proof. unfold is_class. lia. Qed.

Section Epoch.
Variable chars : list ascii.
Variable bodies : list (list Z).
Variable bs : nat.
Variable all_idxs : list nat.
Hypothesis vocabulary_fits : (len (char_table chars) <= 97)%nat.
Hypothesis bodies_classes :
  Forall (Forall (is_class (len (char_table chars)))) bodies.
Hypothesis bs_positive : (0 < bs)%nat.
Hypothesis idxs_in_range : Forall (fun i => (i < length bodies)%nat) all_idxs.

Variables xs ys : list (list Z).
Hypothesis xs_rows : xs = map (cons 1) bodies.
Hypothesis ys_rows : ys = map (fun body => body ++ [2]) bodies.

Lemma row_classes (i : nat) :
  Forall (is_class 97) (nth i xs []) /\
  Forall (is_class 97) (nth i ys []) /\
  length (nth i ys []) = length (nth i xs []).
Proof.
  assert (H3 : (3 <= len (char_table chars))%nat)
    by (rewrite len_char_table; lia).
  assert (H1 : is_class 97 1) by (unfold is_class; lia).
  assert (H2 : is_class 97 2) by (unfold is_class; lia).
  rewrite xs_rows, ys_rows.
  destruct (Nat.lt_ge_cases i (length bodies)) as [Hi|Hi].
  - rewrite (nth_indep _ [] (cons 1 []))
      by (rewrite length_map; exact Hi).
    rewrite (nth_indep (map (fun body => body ++ [2]) bodies) [] ([] ++ [2]))
      by (rewrite length_map; exact Hi).
    rewrite (map_nth (cons 1)), (map_nth (fun body => body ++ [2])).
    assert (Hb : Forall (is_class 97) (nth i bodies [])).
    { rewrite Forall_forall in bodies_classes.
      eapply Forall_impl; [|apply bodies_classes, nth_In, Hi].
      intros c. now apply is_class_le. }
    split; [now constructor|]. split.
    + apply Forall_app. split; [assumption | now repeat constructor].
    + rewrite length_app. simpl. lia.
  - rewrite !nth_overflow by (rewrite length_map; exact Hi).
    repeat split; constructor.
Qed.

Lemma batch_feed_runs (i : nat) :
  slice all_idxs i (i + bs) <> [] ->
  exists maxlen,
    batch_feed bs xs ys all_idxs i
    = Some
        (map (fun utter => utter ++ repeat 0 (maxlen - length utter))
             (map (fun j => nth j xs []) (slice all_idxs i (i + bs))),
         map (fun j => Z.of_nat (length (nth j xs [])))
             (slice all_idxs i (i + bs)),
         map (fun utter => utter ++ repeat 0 (maxlen - length utter))
             (map (fun j => nth j ys []) (slice all_idxs i (i + bs)))).
Proof.
  intros Hne. unfold batch_feed. cbv zeta.
  set (idxs := slice all_idxs i (i + bs)) in *.
  assert (Hidx : Forall (fun j => (j < length bodies)%nat) idxs)
    by (apply Forall_slice, idxs_in_range).
  rewrite (traverse_nth_error xs [])
    by (rewrite xs_rows, length_map; exact Hidx).
  rewrite (traverse_nth_error ys [])
    by (rewrite ys_rows, length_map; exact Hidx).
  destruct (padDataBatch_result (map (fun j => nth j xs []) idxs)
              (map (fun j => nth j ys []) idxs)) as [maxlen [_ Hrun]].
  - destruct idxs; [congruence | discriminate].
  - apply Forall_map, Forall_forall. intros j _. apply row_classes.
  - apply Forall_map, Forall_forall. intros j _.
    eapply Forall_impl; [|apply (row_classes j)].
    unfold is_class. intros c Hc. simpl in Hc. lia.
  - apply Forall2_map_same. intros j _. apply row_classes.
  - exists maxlen. rewrite Hrun.
    rewrite (map_map (fun j => nth j xs [])
                     (fun utter => Z.of_nat (length utter))).
    reflexivity.
Qed.

Lemma train_epoch_runs_aux :
  exists feeds,
    train_epoch bs xs ys all_idxs = Some feeds /\
    length feeds = length (range_step (length all_idxs) bs) /\
    concat (map (fun feed : batch => snd (fst feed)) feeds)
    = map (fun j => Z.of_nat (length (nth j xs []))) all_idxs.
Proof.
  rewrite train_epoch_batches.
  pose proof (batch_count_bounds (length all_idxs) bs bs_positive)
    as [Hall Hlt]. cbv zeta in Hall, Hlt.
  assert (Hstarts : forall i, In i (range_step (length all_idxs) bs) ->
            slice all_idxs i (i + bs) <> []).
  { intros i Hi. unfold range_step in Hi. apply in_map_iff in Hi.
    destruct Hi as [j [<- Hj]]. apply in_seq in Hj.
    assert (Hjn : (j * bs < length all_idxs)%nat) by (apply Hlt; lia).
    unfold slice. intros Hnil. apply (f_equal (@length nat)) in Hnil.
    rewrite length_firstn, length_skipn in Hnil. simpl in Hnil. lia. }
  destruct (traverse_Some (batch_feed bs xs ys all_idxs) (fun _ => True)
              (range_step (length all_idxs) bs)) as [feeds [Hrun [_ Hlen]]].
  { intros i Hi. destruct (batch_feed_runs i (Hstarts i Hi)) as [m Hm].
    eauto. }
  exists feeds. split; [assumption|]. split; [assumption|].
  apply traverse_Forall2 in Hrun.
  transitivity (concat (map (fun i => map (fun j => Z.of_nat
                                             (length (nth j xs [])))
                                          (slice all_idxs i (i + bs)))
                            (range_step (length all_idxs) bs))).
  - clear Hlen. induction Hrun as [|i feed starts feeds' Hfeed _ IH];
      [reflexivity|].
    simpl. rewrite IH by (intros i' Hi'; apply Hstarts; now right).
    f_equal.
    destruct (batch_feed_runs i (Hstarts i (or_introl eq_refl))) as [m Hm].
    rewrite Hm in Hfeed. injection Hfeed as <-. reflexivity.
  - rewrite <- (map_map (fun i => slice all_idxs i (i + bs))
                        (map (fun j => Z.of_nat (length (nth j xs []))))).
    rewrite <- concat_map. f_equal.
    unfold range_step. rewrite map_map, concat_slices.
    now apply firstn_all2.
Qed.
End Epoch.

(** X20. An epoch on the notebook's own data. When the vocabulary has at
    most 97 entries, the batch size is positive and the shuffled indices
    are indices of jokes, the batch loop never raises; it feeds one batch
    per start position, and the length vectors of the feeds, put one after
    the other, are the input lengths of the jokes in shuffled order: every
    joke is fed once. *)
Theorem train_epoch_runs (jokes : list str) (chars : list ascii)
  (bs : nat) (all_idxs : list nat) :
  list_of_set (corpus_text jokes) chars ->
  (len (char_labels chars) <= 97)%nat ->
  (0 < bs)%nat ->
  Forall (fun i => (i < length jokes)%nat) all_idxs ->
  exists xs ys feeds,
    x_data_tf chars jokes = Some xs /\
    y_data_tf chars jokes = Some ys /\
    train_epoch bs xs ys all_idxs = Some feeds /\
    length feeds = length (range_step (length all_idxs) bs) /\
    concat (map (fun feed : batch => snd (fst feed)) feeds)
    = map (fun j => Z.of_nat (length (nth j xs []))) all_idxs.
Proof.
  intros Hset Hfit Hbs Hidx.
  destruct (tf_data_spec jokes chars Hset) as [bodies [HF [Hx [Hy _]]]].
  rewrite (char_labels_corpus _ _ Hset) in *.
  exists (map (cons 1) bodies), (map (fun body => body ++ [2]) bodies).
  assert (Hcl : Forall (Forall (is_class (len (char_table chars)))) bodies).
  { eapply Forall2_Forall_r; [|exact HF]. simpl. intros joke body Hb.
    now apply encode_text_classes in Hb. }
  assert (Hlen : length bodies = length jokes)
    by (symmetry; exact (Forall2_length HF)).
  rewrite <- Hlen in Hidx.
  destruct (train_epoch_runs_aux chars bodies bs all_idxs Hfit Hcl Hbs Hidx
              _ _ eq_refl eq_refl) as [feeds Hfeeds].
  exists feeds. auto.
Qed.

Lemma train_epoch_runs_witness :
  list_of_set (corpus_text example_jokes) example_chars /\
  exists xs ys feeds,
    x_data_tf example_chars example_jokes = Some xs /\
    y_data_tf example_chars example_jokes = Some ys /\
    train_epoch 1 xs ys [1; 0]%nat = Some feeds /\
    length feeds = 2%nat.
Proof.
  assert (Hset : list_of_set (corpus_text example_jokes) example_chars).
  { split.
    - repeat constructor; simpl; intuition discriminate.
    - intros c. vm_compute. tauto. }
  split; [exact Hset|].
  destruct (train_epoch_runs example_jokes example_chars 1%nat [1; 0]%nat Hset)
    as [xs [ys [feeds [Hx [Hy [Hrun [Hlen _]]]]]]].
  - vm_compute. lia.
  - lia.
  - repeat constructor; simpl; lia.
  - exists xs, ys, feeds. auto.
Defined.
